(** * GeoBases.GeoGridModule: a shallow embedding of the grid index

    The Python class [GeoGrid] keeps two dictionaries, [_keys] (key to
    cell and point) and [_grid] (cell to bucket of keys), and answers
    proximity queries by enumerating concentric frontiers of geohash
    cells around a starting cell.

    Conventions of the embedding:
    - A Python number is an [int] of any size or a binary64 [float].
      Where the module computes with floats (the key of the precision
      choice and the frontier count of a radius search) the operations
      are the IEEE 754 ones of [SpecFloat], rounded to nearest even,
      and the conversions raise as Python's do.
    - A float that is only compared (a distance, and the radius it is
      compared with) is given by its exact value, a rational ([Q]);
      [float('inf')] is a separate constructor.  The radius of a search
      is such a value: any finite number, int or float.
    - The geohash primitives [encode] and [neighbors] and the distance
      [haversine] are imported by the module: they are section
      variables here, and the cell type is any countable type.
    - A generator is the list of the values it yields together with the
      way its body ends.  [raise StopIteration] inside a generator body
      ends the iteration silently before PEP 479 and surfaces as
      [RuntimeError] from Python 3.7 on; the flag [pep479] selects the
      interpreter.
    - A Python [set] is a [gset]: its iteration order is the one of
      [elements], which is as arbitrary as CPython's. *)

From Stdlib Require Import ZArith QArith Qround Qabs Lia Lqa String Ascii.
From Stdlib Require Import SpecFloat.
From stdpp Require Import gmap strings list sorting fin_sets.

Local Open Scope Z_scope.

(** ** Python run-time notions used by the module *)

Module Py.

Inductive exn : Type :=
| TypeError
| ValueError
| KeyError
| OverflowError
| ZeroDivisionError
| RuntimeError.

Inductive outcome (A : Type) : Type :=
| Returned (a : A)
| Raised (e : exn).
Global Arguments Returned {A} a.
Global Arguments Raised {A} e.

Definition bind {A B} (m : outcome A) (k : A → outcome B) : outcome B :=
  match m with
  | Returned a => k a
  | Raised e => Raised e
  end.

Global Instance outcome_bind : MBind outcome := λ A B k m, bind m k.
Global Instance outcome_ret : MRet outcome := λ A a, Returned a.

(** [try: body  except (TypeError, Exception): handler]: every
    exception of [exn] derives from [Exception], so the handler
    catches them all. *)
Definition try_except {A} (body : outcome A) (handler : exn → outcome A)
  : outcome A :=
  match body with
  | Returned a => Returned a
  | Raised e => handler e
  end.

(** How the body of a generator ends: by falling off its end, by an
    explicit [raise StopIteration], or by another exception. *)
Inductive ending : Type :=
| Finished
| StopIterationRaised
| Failed (e : exn).

Record generator (A : Type) : Type :=
  Gen { yielded : list A; stop : ending }.
Global Arguments Gen {A} yielded stop.
Global Arguments yielded {A} g.
Global Arguments stop {A} g.

(** What the consumer of a generator sees once the yielded values are
    used up: nothing, or an exception. *)
Definition surfaced (pep479 : bool) (e : ending) : option exn :=
  match e with
  | Finished => None
  | StopIterationRaised => if pep479 then Some RuntimeError else None
  | Failed x => Some x
  end.

Definition ending_of (o : option exn) : ending :=
  match o with
  | None => Finished
  | Some x => Failed x
  end.

(** A [float] that is only compared, by its value: a rational or
    [float('inf')]. *)
Inductive float : Type :=
| Fin (q : Q)
| Inf.

Definition float_le (q : Q) (r : float) : bool :=
  match r with
  | Fin r => Qle_bool q r
  | Inf => true
  end.

Definition Qltb (a b : Q) : bool := negb (Qle_bool b a).

Definition Qabs_ (q : Q) : Q := if Qle_bool 0 q then q else Qopp q.

(** *** Numbers

    The floats the module computes with are binary64: 53 bits of
    precision, exponents below 1024. *)
Definition prec : Z := 53.
Definition emax : Z := 1024.

Inductive number : Type :=
| Int (z : Z)
| Float (f : spec_float).

Coercion Int : Z >-> number.

(** The binary64 nearest to a rational, ties to even: the quotient of
    the numerator by the denominator, rounded once. *)
Definition round64 (q : Q) : spec_float :=
  match Qnum q with
  | Z0 => S754_zero false
  | Zpos n => SFdiv prec emax (S754_finite false n 0) (S754_finite false (Qden q) 0)
  | Zneg n => SFdiv prec emax (S754_finite true n 0) (S754_finite false (Qden q) 0)
  end.

(** A float literal in decimal notation. *)
Definition lit (q : Q) : number := Float (round64 q).

(** The exact value of a finite float, [m * 2 ^ e] with its sign. *)
Definition F2Q (f : spec_float) : Q :=
  match f with
  | S754_finite s m e =>
      match e with
      | Zneg k => Qmake (cond_Zopp s (Zpos m)) (2 ^ k)
      | _ => inject_Z (cond_Zopp s (Zpos m) * 2 ^ e)
      end
  | _ => 0%Q
  end.

(** Where a number lies on the real line.  Python compares an [int]
    with a [float] by their exact values. *)
Inductive place : Type :=
| Nowhere                       (* nan *)
| Lowest                        (* -inf *)
| At (q : Q)
| Highest.                      (* inf *)

Definition place_of (x : number) : place :=
  match x with
  | Int z => At (inject_Z z)
  | Float S754_nan => Nowhere
  | Float (S754_infinity true) => Lowest
  | Float (S754_infinity false) => Highest
  | Float f => At (F2Q f)
  end.

Definition place_ltb (a b : place) : bool :=
  match a, b with
  | Nowhere, _ | _, Nowhere => false
  | Lowest, Lowest => false
  | Lowest, _ => true
  | At _, Lowest => false
  | At x, At y => Qltb x y
  | At _, Highest => true
  | Highest, _ => false
  end.

Definition place_eqb (a b : place) : bool :=
  match a, b with
  | Lowest, Lowest | Highest, Highest => true
  | At x, At y => Qeq_bool x y
  | _, _ => false
  end.

(** [a < b] and [a == b] on numbers. *)
Definition num_ltb (a b : number) : bool := place_ltb (place_of a) (place_of b).
Definition num_eqb (a b : number) : bool := place_eqb (place_of a) (place_of b).

(** A float computed from finite operands; [float(x)] raises when the
    result would be infinite. *)
Definition finite_or_overflow (f : spec_float) : outcome spec_float :=
  match f with
  | S754_infinity _ => Raised OverflowError
  | _ => Returned f
  end.

(** [float(x)] on a finite number given by its value: an [int] is
    rounded, the value of a float is that float. *)
Definition float_of_value (q : Q) : outcome spec_float :=
  finite_or_overflow (round64 q).

(** [float(x)], also the conversion of the [int] operand when the
    other operand of an operation is a [float]. *)
Definition float_of (x : number) : outcome spec_float :=
  match x with
  | Int z => float_of_value (inject_Z z)
  | Float f => Returned f
  end.

(** [a - b] *)
Definition num_sub (a b : number) : outcome number :=
  match a, b with
  | Int x, Int y => Returned (Int (x - y))
  | _, _ =>
      x ← float_of a;
      y ← float_of b;
      Returned (Float (SFsub prec emax x y))
  end.

(** [abs(a)] *)
Definition num_abs (a : number) : number :=
  match a with
  | Int z => Int (Z.abs z)
  | Float f => Float (SFabs f)
  end.

(** [a / b] with a float on the left. *)
Definition float_div (a : spec_float) (b : number) : outcome spec_float :=
  y ← float_of b;
  match y with
  | S754_zero _ => Raised ZeroDivisionError
  | _ => Returned (SFdiv prec emax a y)
  end.

(** [int(x)] on a float truncates toward zero. *)
Definition int (f : spec_float) : outcome Z :=
  match f with
  | S754_nan => Raised ValueError
  | S754_infinity _ => Raised OverflowError
  | S754_zero _ => Returned 0
  | S754_finite s m e => Returned (cond_Zopp s (Z.shiftl (Zpos m) e))
  end.

(** A float with sign bit [s] that is not [nan]. *)
Definition signed (s : bool) (f : spec_float) : Prop :=
  f = S754_zero s ∨ f = S754_infinity s ∨ ∃ m e, f = S754_finite s m e.

(** [len(range(n))]. *)
Definition range_len (n : Z) : nat := Z.to_nat n.

(** [l[:n]]: a negative [n] counts from the end. *)
Definition slice_to {A} (n : Z) (l : list A) : list A :=
  if 0 <=? n then take (Z.to_nat n) l
  else take (Z.to_nat (Z.of_nat (length l) + n)) l.

(** [min(it, key=f)]: the key of every element is computed as the
    iteration reaches it, and an element replaces the best so far when
    its key is [<] the key of that one; [ltb] is [<] on keys. *)
Section Min.
Context {A K : Type} (ltb : K → K → bool) (key : A → outcome K).

Fixpoint min_from (best : A) (kbest : K) (l : list A) : outcome A :=
  match l with
  | [] => Returned best
  | x :: l' =>
      k ← key x;
      if ltb k kbest then min_from x k l' else min_from best kbest l'
  end.

Definition min_by (l : list A) : outcome A :=
  match l with
  | [] => Raised ValueError
  | x :: l' => k ← key x; min_from x k l'
  end.
End Min.

(** Comparison of tuples [(bool, number)] and [(float, str)]. *)
Definition bool_ltb (a b : bool) : bool := negb a && b.

Definition flag_dist_ltb (x y : bool * number) : bool :=
  bool_ltb x.1 y.1 || (Bool.eqb x.1 y.1 && num_ltb x.2 y.2).

Definition dist_key_leb (x y : Q * string) : bool :=
  Qltb x.1 y.1 || (Qeq_bool x.1 y.1 && String.leb x.2 y.2).

Definition dist_key_le (x y : Q * string) : Prop := dist_key_leb x y = true.

Global Instance dist_key_le_dec : RelDecision dist_key_le.
Proof. intros x y. unfold dist_key_le. apply _. Defined.

(** [sorted] is a stable sort; on a total order every sort returns the
    same list. *)
Definition sorted (l : list (Q * string)) : list (Q * string) :=
  merge_sort dist_key_le l.

End Py.

Import Py.

(** ** The module *)

Definition MAX_RECURSIVE_FRONTIER : Z := 5000.

Definition Key : Type := string.

(** A [lat_lng] argument as a caller can pass it. *)
Inductive coords : Type :=
| NoCoords                      (* None *)
| Coords (lat lng : Q)          (* a pair of numbers *)
| BadCoords (repr : string).    (* anything else: wrong arity or type *)

Inductive event : Type :=
| SettingPrecision (precision : Z) (avg_radius : number)
| WrongCoordinates (lat_lng : coords) (key : Key)
| RecursionExceeded.

(** hash length | lat bits | lng bits | lat error | lng error | km error *)
Definition errors : Type := (Z * Z * number * number * number)%type.

Definition precision_to_errors : list (Z * errors) :=
  [ (1, (2,  3,  Int 23,       Int 23,      Int 2500));
    (2, (5,  5,  lit 2.8,      lit 5.6,     Int 630));
    (3, (7,  8,  lit 0.70,     lit 0.7,     Int 78));
    (4, (10, 10, lit 0.087,    lit 0.18,    Int 20));
    (5, (12, 13, lit 0.022,    lit 0.022,   lit 2.4));
    (6, (15, 15, lit 0.0027,   lit 0.0055,  lit 0.61));
    (7, (17, 18, lit 0.00068,  lit 0.00068, lit 0.076));
    (8, (20, 20, lit 0.000085, lit 0.00017, lit 0.019)) ].

(** [x[1][4]] *)
Definition km_error (x : Z * errors) : number := x.2.2.

(** [precision_to_errors[precision]] *)
Definition errors_of (precision : Z) : outcome errors :=
  match list_find (λ x, x.1 = precision) precision_to_errors with
  | Some (_, x) => Returned x.2
  | None => Raised KeyError
  end.

(** [lambda x: (x[1][4] < radius, abs(radius - x[1][4]))] *)
Definition selection_key (radius : number) (x : Z * errors)
  : outcome (bool * number) :=
  let below := num_ltb (km_error x) radius in
  distance ← num_sub radius (km_error x);
  Returned (below, num_abs distance).

Definition select_precision (radius : number) : outcome Z :=
  x ← min_by flag_dist_ltb (selection_key radius) precision_to_errors;
  Returned x.1.

(** The order of the selection rule in words, on the keys as they
    are computed: a key is not above another when its indicator of
    [error < radius] is lower, 0 before 1, or when the indicators agree
    and the distance of the other key is not below its own. *)
Definition selection_le (kx ky : bool * number) : Prop :=
  Z.b2z kx.1 < Z.b2z ky.1 ∨
  (Z.b2z kx.1 = Z.b2z ky.1 ∧ num_ltb ky.2 kx.2 = false).






(** Whether [precision] names the entry of least error among the
    entries whose error is not below [radius]. *)
Definition finest_covering (radius : number) (precision : Z) : bool :=
  existsb (λ x : Z * errors,
             (x.1 =? precision) && negb (num_ltb (km_error x) radius) &&
             forallb (λ y : Z * errors,
                        num_ltb (km_error y) radius ||
                        negb (num_ltb (km_error y) (km_error x)))
               precision_to_errors)
    precision_to_errors.

(** [self._keys[key]]: the cell and the point of a key. *)
Record entry (Cell : Type) : Type :=
  Entry { case : Cell; lat_lng : coords }.
Arguments Entry {Cell} case lat_lng.
Arguments case {Cell} e.
Arguments lat_lng {Cell} e.

(** The instance attributes of a [GeoGrid]. *)
Record GeoGrid (Cell : Type) `{Countable Cell} : Type :=
  MkGeoGrid {
    _precision : Z;
    _avg_radius : number;
    _keys : gmap Key (entry Cell);
    _grid : gmap Cell (list Key)
  }.
Arguments MkGeoGrid {Cell _ _} _precision _avg_radius _keys _grid.
Arguments _precision {Cell _ _} g.
Arguments _avg_radius {Cell _ _} g.
Arguments _keys {Cell _ _} g.
Arguments _grid {Cell _ _} g.

Section Model.
Context {Cell : Type} `{Countable Cell}.

(** [geohash.encode(lat, lng, precision)]: fails on invalid coordinates. *)
Variable encode : Q → Q → Z → outcome Cell.
(** [geohash.neighbors(cid)] *)
Variable neighbors : Cell → list Cell.
(** [GeoUtils.haversine(p, q)] *)
Variable haversine : coords → coords → Q.
(** Whether the interpreter implements PEP 479 (Python 3.7 and later). *)
Variable pep479 : bool.

Definition __init__ (precision : Z) (radius : option number) (verbose : bool)
  : outcome (GeoGrid Cell * list event) :=
  precision ← match radius with
              | Some r => select_precision r
              | None => Returned precision
              end;
  errors ← errors_of precision;
  Returned (MkGeoGrid precision errors.2 ∅ ∅,
            if verbose then [SettingPrecision precision errors.2] else []).

(** [encode] applied to the unpacked [lat_lng]: unpacking [None] or a
    value that is no pair of numbers raises before or inside [encode]. *)
Definition _computeCaseId (g : GeoGrid Cell) (p : coords) : outcome Cell :=
  match p with
  | Coords lat lng => encode lat lng (_precision g)
  | NoCoords | BadCoords _ => Raised TypeError
  end.

Definition add (g : GeoGrid Cell) (key : Key) (p : coords) (verbose : bool)
  : outcome (GeoGrid Cell * list event) :=
  match _computeCaseId g p with
  | Raised _ =>
      (* except (TypeError, Exception): print if verbose; return *)
      Returned (g, if verbose then [WrongCoordinates p key] else [])
  | Returned case_id =>
      let keys := <[key := Entry case_id p]> (_keys g) in
      let grid := match _grid g !! case_id with
                  | None => <[case_id := []]> (_grid g)
                  | Some _ => _grid g
                  end in
      let grid := alter (λ bucket, bucket ++ [key]) case_id grid in
      Returned (MkGeoGrid (_precision g) (_avg_radius g) keys grid, [])
  end.

(** The indexes a program can build: a constructor call followed by
    calls of [add]. *)
Inductive reachable : GeoGrid Cell → Prop :=
| reachable_init precision radius verbose g out :
    __init__ precision radius verbose = Returned (g, out) →
    reachable g
| reachable_add g key p verbose g' out :
    reachable g →
    add g key p verbose = Returned (g', out) →
    reachable g'.

(** The two dictionaries agree: a key of [_keys] is in the bucket of its
    cell, and a key of a bucket is a key of [_keys]. *)
Definition keys_in_buckets (g : GeoGrid Cell) : Prop :=
  ∀ key e, _keys g !! key = Some e →
    ∃ bucket, _grid g !! case e = Some bucket ∧ key ∈ bucket.

Definition buckets_in_keys (g : GeoGrid Cell) : Prop :=
  ∀ case_id bucket key, _grid g !! case_id = Some bucket → key ∈ bucket →
    is_Some (_keys g !! key).

(** A run of [add] calls, as a build phase makes them. *)
Definition add_all (g : GeoGrid Cell) (points : list (Key * coords)) : GeoGrid Cell :=
  foldl (λ g kp, match add g kp.1 kp.2 true with
                 | Returned (g', _) => g'
                 | Raised _ => g
                 end) g points.

(** [set([k for cid in frontier for k in neighbors(cid) if k not in interior])] *)
Definition _nextFrontier (frontier interior : gset Cell) : gset Cell :=
  list_to_set
    (cid ← elements frontier;
     filter (λ k, k ∉ interior) (neighbors cid)).

(** The loop of [_recursiveFrontier] from index [i] on, for [fuel] more
    values of [gen]. *)
Fixpoint frontiers (fuel : nat) (i : Z) (frontier interior : gset Cell)
  : generator (gset Cell) :=
  match fuel with
  | O => Gen [] Finished
  | S fuel =>
      if MAX_RECURSIVE_FRONTIER <? i then
        (* print the warning; raise StopIteration *)
        Gen [] StopIterationRaised
      else
        let next := _nextFrontier frontier interior in
        let rest := frontiers fuel (i + 1) next (interior ∪ next) in
        Gen (frontier :: yielded rest) (stop rest)
  end.

(** [gen] is [range(N)] when [stop] is [True] and [itertools.count()]
    otherwise; the body leaves the loop at index [MAX_RECURSIVE_FRONTIER + 1],
    so that many values of [count()] and one more are all it ever uses. *)
Definition _recursiveFrontier (case_id : Cell) (N : Z) (stop : bool)
  : generator (gset Cell) :=
  let fuel := if stop then range_len N
              else Z.to_nat (MAX_RECURSIVE_FRONTIER + 2) in
  frontiers fuel 0 {[case_id]} {[case_id]}.

Definition _allKeysInCases (g : GeoGrid Cell) (cases : list Cell) : list Key :=
  case_id ← cases; default [] (_grid g !! case_id).

Definition _findInAdjacentCases (g : GeoGrid Cell) (case_id : Cell) (N : Z)
  : generator Key :=
  let rings := _recursiveFrontier case_id N true in
  Gen (frontier ← yielded rings; _allKeysInCases g (elements frontier))
      (ending_of (surfaced pep479 (stop rings))).

(** The [N] of [_findNearCase]: [float(radius)] is compared with the
    average radius and divided by it in binary64, and [int] truncates
    the quotient.  The conversions raise [OverflowError] on a radius
    too large for a float and on an infinite quotient.  The radius
    enters through [float(radius)] only, which depends on its value and
    not on its being an int or a float. *)
Definition near_rings (g : GeoGrid Cell) (radius : Q) : outcome Z :=
  r ← float_of_value radius;
  if num_eqb (Float r) (_avg_radius g) then Returned 2
  else
    quotient ← float_div r (_avg_radius g);
    n ← int quotient;
    Returned (n + 2).

Definition _findNearCase (g : GeoGrid Cell) (case_id : Cell) (radius : Q)
  : outcome (generator Key) :=
  N ← near_rings g radius;
  Returned (_findInAdjacentCases g case_id N).

(** [haversine(ref_lat_lng, self._keys[can]['lat_lng'])] paired with [can]. *)
Definition with_distance (g : GeoGrid Cell) (ref_lat_lng : coords) (can : Key)
  : Q * Key :=
  (match _keys g !! can with
   | Some e => haversine ref_lat_lng (lat_lng e)
   | None => 0%Q
   end, can).

(** [_check_distance] over the candidates a generator yields; [after] is
    how the candidate generator ends for its consumer. *)
Fixpoint check_distance_from (g : GeoGrid Cell) (candidate : list Key)
    (after : ending) (ref_lat_lng : coords) (radius : float)
  : generator (Q * Key) :=
  match candidate with
  | [] => Gen [] after
  | can :: candidate =>
      match _keys g !! can with
      | None => Gen [] (Failed KeyError)
      | Some e =>
          let dist := haversine ref_lat_lng (lat_lng e) in
          let rest := check_distance_from g candidate after ref_lat_lng radius in
          if float_le dist radius
          then Gen ((dist, can) :: yielded rest) (stop rest)
          else rest
      end
  end.

Definition _check_distance (g : GeoGrid Cell) (candidate : generator Key)
    (ref_lat_lng : coords) (radius : float) : generator (Q * Key) :=
  check_distance_from g (yielded candidate) (stop candidate) ref_lat_lng radius.

(** [((0, can) for can in candidate)] *)
Definition zero_dist (candidate : generator Key) : generator (Q * Key) :=
  Gen ((λ can, (0%Q, can)) <$> yielded candidate) (stop candidate).

Definition findNearPoint (g : GeoGrid Cell) (p : coords) (radius : Q)
    (double_check : bool) : outcome (generator (Q * Key)) :=
  match p with
  | NoCoords => Returned (Gen [] Finished)
  | _ =>
      case_id ← _computeCaseId g p;
      candidate ← _findNearCase g case_id radius;
      if double_check
      then Returned (_check_distance g candidate p (Fin radius))
      else Returned (zero_dist candidate)
  end.

Definition findNearKey (g : GeoGrid Cell) (key : Key) (radius : Q)
    (double_check : bool) : outcome (generator (Q * Key)) :=
  match _keys g !! key with
  | None => Returned (Gen [] Finished)
  | Some e =>
      candidate ← _findNearCase g (case e) radius;
      if double_check
      then Returned (_check_distance g candidate (lat_lng e) (Fin radius))
      else Returned (zero_dist candidate)
  end.

(** The [for frontier in ...] loop of [findClosestFromPoint] over the
    frontiers still to come: the keys found and whether the loop was
    left by [break]. *)
Fixpoint closest_loop (g : GeoGrid Cell) (N : Z) (from_keys : option (gset Key))
    (rings : list (gset Cell)) (found : gset Key) : gset Key * bool :=
  match rings with
  | [] => (found, false)
  | frontier :: rings =>
      let found := found ∪ list_to_set (_allKeysInCases g (elements frontier)) in
      let found := match from_keys with
                   | Some keys => found ∩ keys
                   | None => found
                   end in
      if (N <=? Z.of_nat (size found)) && (1 <? Z.of_nat (size frontier))
      then (found, true)
      else closest_loop g N from_keys rings found
  end.

(** [from_keys] is the argument after [set(from_keys)]. *)
Definition findClosestFromPoint (g : GeoGrid Cell) (p : coords) (N : Z)
    (double_check : bool) (from_keys : option (gset Key))
  : outcome (list (Q * Key)) :=
  if bool_decide (from_keys = Some ∅) then Returned []
  else
    let N := Z.min N (Z.of_nat (size (_keys g))) in
    case_id ← _computeCaseId g p;
    let rings := _recursiveFrontier case_id 1 false in
    let '(found, broke) := closest_loop g N from_keys (yielded rings) ∅ in
    match (if broke then None else surfaced pep479 (stop rings)) with
    | Some e => Raised e
    | None =>
        if double_check then
          let checked := _check_distance g (Gen (elements found) Finished) p Inf in
          match surfaced pep479 (stop checked) with
          | Some e => Raised e
          | None => Returned (slice_to N (sorted (yielded checked)))
          end
        else Returned ((λ f, (0%Q, f)) <$> elements found)
    end.

End Model.

(** ** Stand-ins for the imported functions

    Two grids on which the module can be run.  [Plane] is the unbounded
    regular grid: every cell has its eight neighbours.  [World] has the
    layout of geohash at precision 1: eight columns of 45 degrees that
    wrap around in longitude and four rows that end at the poles. *)

Module Plane.

Definition cell : Type := (Z * Z)%type.

Definition neighbors (c : cell) : list cell :=
  let '(x, y) := c in
  [ (x - 1, y - 1); (x - 1, y); (x - 1, y + 1);
    (x, y - 1);                 (x, y + 1);
    (x + 1, y - 1); (x + 1, y); (x + 1, y + 1) ].

Definition in_range (lat lng : Q) : bool :=
  Qle_bool (-90) lat && Qltb lat 90 && Qle_bool (-180) lng && Qltb lng 180.

(** Cells of one degree. *)
Definition encode (lat lng : Q) (precision : Z) : outcome cell :=
  if in_range lat lng then Returned (Qfloor lng, Qfloor lat)
  else Raised ValueError.

(** Taxicab distance in degrees. *)
Definition distance (p q : coords) : Q :=
  match p, q with
  | Coords a b, Coords c d => (Qabs_ (a - c) + Qabs_ (b - d))%Q
  | _, _ => 0%Q
  end.

End Plane.

Module World.

Definition columns : Z := 8.
Definition rows : Z := 4.

Definition neighbors (c : Plane.cell) : list Plane.cell :=
  (λ k : Plane.cell, (k.1 mod columns, k.2))
    <$> filter (λ k : Plane.cell, 0 ≤ k.2 < rows) (Plane.neighbors c).

Definition encode (lat lng : Q) (precision : Z) : outcome Plane.cell :=
  if Plane.in_range lat lng
  then Returned (Qfloor ((lng + 180) / 45), Qfloor ((lat + 90) / 45))
  else Raised ValueError.

(** [GeoGrid(radius=20)], then ORY and CDG as in the module's doctest. *)
Definition orly : coords := Coords 48.72 2.359.
Definition roissy : coords := Coords 48.75 2.361.

Definition airports : GeoGrid Plane.cell :=
  add_all encode (MkGeoGrid 4 20 ∅ ∅) [("ORY"%string, orly); ("CDG"%string, roissy)].

(** Two keys stored at one point, the later one first in key order. *)
Definition twins : GeoGrid Plane.cell :=
  add_all encode (MkGeoGrid 4 20 ∅ ∅) [("B"%string, orly); ("A"%string, orly)].

(** [GeoGrid(precision=8)]: the finest cells of the table. *)
Definition fine : GeoGrid Plane.cell := MkGeoGrid 8 (lit 0.019) ∅ ∅.

(** A key added twice, the second time in another cell. *)
Definition moved : GeoGrid Plane.cell :=
  add_all encode (MkGeoGrid 4 20 ∅ ∅)
    [("ORY"%string, orly); ("CDG"%string, roissy); ("ORY"%string, Coords 10 100)].

(** Three keys in one cell. *)
Definition triplet : GeoGrid Plane.cell :=
  add_all encode (MkGeoGrid 4 20 ∅ ∅)
    [("A"%string, orly); ("B"%string, orly); ("C"%string, roissy)].

(** The answer of [findClosestFromPoint((48.75, 2.361), N=2,
    double_check=True)] on [airports], before PEP 479. *)
Definition closest_to_roissy : list (Q * Key) :=
  Eval vm_compute in
    match findClosestFromPoint encode neighbors Plane.distance false
            airports roissy 2 true None with
    | Returned l => l
    | Raised _ => []
    end.

End World.

(** ** Regular adjacency

    [neighbors] is the adjacency of the square grid around [origin] when
    the cells have integer coordinates, no two cells share theirs, and
    the neighbours of every cell closer to [origin] than [radius] (in
    the maximum norm) are the cells at distance 1 of it. *)

Definition cheb (a b : Z * Z) : Z :=
  Z.max (Z.abs (a.1 - b.1)) (Z.abs (a.2 - b.2)).

Definition regular_around {Cell : Type} (neighbors : Cell → list Cell)
    (coord : Cell → Z * Z) (origin : Cell) (radius : Z) : Prop :=
  (∀ c c', coord c = coord c' → c = c') ∧
  ∀ c, cheb (coord c) (coord origin) < radius →
    ∀ q, (∃ c', c' ∈ neighbors c ∧ coord c' = q) ↔ cheb q (coord c) = 1.

(** The coordinates within distance [n] of [o], and at distance [i]. *)
Definition ball (o : Z * Z) (n : Z) : gset (Z * Z) :=
  list_to_set (x ← seqZ (o.1 - n) (2 * n + 1);
               y ← seqZ (o.2 - n) (2 * n + 1); [(x, y)]).

Definition sphere (o : Z * Z) (i : Z) : gset (Z * Z) :=
  ball o i ∖ ball o (i - 1).

(** The cell of the sphere of radius [i] nearest to [q]. *)
Definition toward (o : Z * Z) (i : Z) (q : Z * Z) : Z * Z :=
  (Z.max (o.1 - i) (Z.min (o.1 + i) q.1), Z.max (o.2 - i) (Z.min (o.2 + i) q.2)).

(** The points of a build phase that the encoder accepts, each with the
    entry [add] records for it. *)
Definition accepted {Cell : Type} `{Countable Cell}
    (encode : Q → Q → Z → outcome Cell) (g : GeoGrid Cell)
    (points : list (Key * coords)) : list (Key * entry Cell) :=
  omap (λ kp : Key * coords,
          match _computeCaseId encode g kp.2 with
          | Returned case_id => Some (kp.1, Entry case_id kp.2)
          | Raised _ => None
          end) points.

(** * Properties *)

Lemma MAX_RECURSIVE_FRONTIER_nonneg : 0 ≤ MAX_RECURSIVE_FRONTIER.
Proof. unfold MAX_RECURSIVE_FRONTIER. lia. Qed.

(** ** Binary64 arithmetic *)

Lemma shr_1_nonneg mrs : 0 ≤ shr_m mrs → 0 ≤ shr_m (shr_1 mrs).
Proof.
  destruct mrs as [m r s]. cbn [shr_m]. intros Hm.
  destruct m as [|[p|p|]|p]; cbn; lia.
Qed.

Lemma iter_shr_1_nonneg p : ∀ mrs,
  0 ≤ shr_m mrs → 0 ≤ shr_m (SpecFloat.iter_pos shr_1 p mrs).
Proof.
  induction p as [p IH|p IH|]; intros mrs Hm; cbn [SpecFloat.iter_pos].
  - by apply IH, IH, shr_1_nonneg.
  - by apply IH, IH.
  - by apply shr_1_nonneg.
Qed.

Lemma shr_fexp_nonneg m e l :
  0 ≤ m → 0 ≤ shr_m (shr_fexp prec emax m e l).1.
Proof.
  intros Hm. unfold shr_fexp, shr.
  assert (0 ≤ shr_m (shr_record_of_loc m l)) as Hrec
    by (by destruct l as [|[]]).
  destruct (fexp prec emax (Zdigits2 m + e) - e); cbn [fst]; [done| |done].
  by apply iter_shr_1_nonneg.
Qed.

Lemma round_nearest_even_nonneg m l : 0 ≤ m → 0 ≤ round_nearest_even m l.
Proof.
  intros Hm. destruct l as [|[]]; cbn [round_nearest_even]; try lia.
  destruct (Z.even m); lia.
Qed.

(** Rounding gives a zero, a finite float or an infinity of the sign it
    is given, never [nan]. *)
Lemma binary_round_aux_signed s m e l :
  0 ≤ m → signed s (binary_round_aux prec emax s m e l).
Proof.
  intros Hm. unfold binary_round_aux.
  pose proof (shr_fexp_nonneg m e l Hm) as H1.
  destruct (shr_fexp prec emax m e l) as [mrs' e'] eqn:E1. cbn [fst] in H1.
  pose proof (shr_fexp_nonneg _ e' loc_Exact
                (round_nearest_even_nonneg _ (loc_of_shr_record mrs') H1)) as H2.
  destruct (shr_fexp prec emax (round_nearest_even _ _) e' loc_Exact)
    as [mrs'' e''] eqn:E2. cbn [fst] in H2.
  destruct (shr_m mrs'') as [|p|p]; [by left| |lia].
  destruct (e'' <=? emax - prec); [right; right; by eexists _, _|right; by left].
Qed.

Lemma SFdiv_signed sx mx ex sy my ey :
  signed (xorb sx sy)
    (SFdiv prec emax (S754_finite sx mx ex) (S754_finite sy my ey)).
Proof.
  cbn [SFdiv]. unfold SFdiv_core_binary.
  set (d := Z.min _ _). set (s := ex - ey - d).
  set (m' := match s with Z.pos _ => Z.shiftl (Z.pos mx) s | 0 => Z.pos mx
             | Z.neg _ => 0 end).
  assert (0 ≤ m') as Hm'.
  { unfold m'. destruct s; [lia| |lia]. apply Z.shiftl_nonneg. lia. }
  pose proof (Z_div_mod m' (Z.pos my) eq_refl) as Hdiv.
  destruct (Z.div_eucl m' (Z.pos my)) as [q r]. destruct Hdiv as [Hq Hr].
  apply binary_round_aux_signed. nia.
Qed.

Lemma round64_signed (q : Q) : (0 <= q)%Q → signed false (round64 q).
Proof.
  destruct q as [n d]. unfold Qle, round64. cbn [Qnum Qden]. intros Hn.
  destruct n as [|n|n]; [by left| |lia].
  apply (SFdiv_signed false n 0 false d 0).
Qed.

(** [int] is the floor of the value on what is not negative. *)
Lemma int_floor (f : spec_float) n :
  signed false f → int f = Returned n → n = Qfloor (F2Q f).
Proof.
  intros [->|[->|(m & e & ->)]]; cbn [int]; [by intros [= <-]|done|].
  intros [= <-]. cbn [cond_Zopp F2Q].
  destruct e as [|e|e]; cbn [Qfloor inject_Z].
  - rewrite Z.shiftl_0_r, Z.div_1_r. lia.
  - rewrite Z.shiftl_mul_pow2 by lia. by rewrite Z.div_1_r.
  - change (Z.shiftl (Z.pos m) (Z.neg e)) with (Z.shiftr (Z.pos m) (Z.pos e)).
    rewrite Z.shiftr_div_pow2 by lia. by rewrite Pos2Z.inj_pow.
Qed.

Lemma int_signed (f : spec_float) n :
  signed false f → int f = Returned n → 0 ≤ n.
Proof.
  intros [->|[->|(m & e & ->)]]; cbn [int]; [by intros [= <-]|done|].
  intros [= <-]. cbn [cond_Zopp]. apply Z.shiftl_nonneg. lia.
Qed.

Lemma int_raised (f : spec_float) s e :
  signed s f → int f = Raised e → e = OverflowError.
Proof.
  intros [->|[->|(m & e' & ->)]]; cbn [int]; [done| |done]. by intros [= <-].
Qed.

Section Frontier.
Context {Cell : Type} `{Countable Cell}.
Variable neighbors : Cell → list Cell.

Lemma frontiers_unfold fuel i (F I : gset Cell) :
  frontiers neighbors (S fuel) i F I =
    if MAX_RECURSIVE_FRONTIER <? i then Gen [] StopIterationRaised
    else
      let rest := frontiers neighbors fuel (i + 1)
                    (_nextFrontier neighbors F I)
                    (I ∪ _nextFrontier neighbors F I) in
      Gen (F :: yielded rest) (stop rest).
Proof. reflexivity. Qed.

(** The generator yields one frontier for each value of [gen] up to index
    [MAX_RECURSIVE_FRONTIER]. *)
Lemma frontiers_length fuel : ∀ i (F I : gset Cell),
  0 ≤ i →
  length (yielded (frontiers neighbors fuel i F I)) =
    Nat.min fuel (Z.to_nat (MAX_RECURSIVE_FRONTIER + 1 - i)).
Proof.
  induction fuel as [|fuel IH]; intros i F I Hi; [done|].
  rewrite frontiers_unfold.
  destruct (Z.ltb_spec MAX_RECURSIVE_FRONTIER i) as [Hlt|Hge];
    cbn [yielded length].
  - lia.
  - rewrite IH by lia. lia.
Qed.

(** It ends by [raise StopIteration] exactly when [gen] has a value past
    that index. *)
Lemma frontiers_stop fuel : ∀ i (F I : gset Cell),
  0 ≤ i ≤ MAX_RECURSIVE_FRONTIER + 1 →
  stop (frontiers neighbors fuel i F I) =
    if decide (MAX_RECURSIVE_FRONTIER + 1 - i < Z.of_nat fuel)
    then StopIterationRaised else Finished.
Proof.
  induction fuel as [|fuel IH]; intros i F I Hi.
  - simpl. case_decide; [lia|done].
  - rewrite frontiers_unfold.
    destruct (Z.ltb_spec MAX_RECURSIVE_FRONTIER i) as [Hlt|Hge];
      cbn [stop].
    + case_decide; [done|lia].
    + rewrite IH by lia. repeat case_decide; (done || lia).
Qed.

(** Values of [itertools.count()] past the one that trips the guard are
    never used: any larger supply gives the same generator. *)
Lemma frontiers_enough fuel : ∀ i (F I : gset Cell),
  0 ≤ i ≤ MAX_RECURSIVE_FRONTIER + 1 →
  MAX_RECURSIVE_FRONTIER + 2 - i ≤ Z.of_nat fuel →
  frontiers neighbors fuel i F I =
    frontiers neighbors (Z.to_nat (MAX_RECURSIVE_FRONTIER + 2 - i)) i F I.
Proof.
  induction fuel as [|fuel IH]; intros i F I Hi Hfuel.
  - lia.
  - destruct (Z.ltb_spec MAX_RECURSIVE_FRONTIER i) as [Hlt|Hge].
    + replace (Z.to_nat (MAX_RECURSIVE_FRONTIER + 2 - i)) with 1%nat by lia.
      rewrite !frontiers_unfold.
      destruct (Z.ltb_spec MAX_RECURSIVE_FRONTIER i); [done|lia].
    + replace (Z.to_nat (MAX_RECURSIVE_FRONTIER + 2 - i))
        with (S (Z.to_nat (MAX_RECURSIVE_FRONTIER + 2 - (i + 1)))) by lia.
      rewrite !frontiers_unfold.
      destruct (Z.ltb_spec MAX_RECURSIVE_FRONTIER i); [lia|].
      simpl. rewrite IH by lia. done.
Qed.

Lemma _recursiveFrontier_length case_id N stop :
  length (yielded (_recursiveFrontier neighbors case_id N stop)) =
    if stop then Z.to_nat (Z.min N (MAX_RECURSIVE_FRONTIER + 1))
    else Z.to_nat (MAX_RECURSIVE_FRONTIER + 1).
Proof.
  unfold _recursiveFrontier, range_len.
  pose proof MAX_RECURSIVE_FRONTIER_nonneg.
  rewrite frontiers_length by done. destruct stop; lia.
Qed.

Lemma _recursiveFrontier_stop case_id N stop :
  Py.stop (_recursiveFrontier neighbors case_id N stop) =
    if decide (stop = false ∨ MAX_RECURSIVE_FRONTIER + 1 < N)
    then StopIterationRaised else Finished.
Proof.
  unfold _recursiveFrontier, range_len.
  pose proof MAX_RECURSIVE_FRONTIER_nonneg.
  rewrite frontiers_stop by lia.
  destruct stop; repeat case_decide; try done; try lia; naive_solver lia.
Qed.

End Frontier.

Section Index.
Context {Cell : Type} `{Countable Cell}.
Variable encode : Q → Q → Z → outcome Cell.

Lemma __init___empty precision radius verbose (g : GeoGrid Cell) out :
  __init__ precision radius verbose = Returned (g, out) →
  _keys g = ∅ ∧ _grid g = ∅.
Proof.
  unfold __init__, mbind, outcome_bind, bind. intros Hinit.
  destruct (match radius with Some r => _ | None => _ end); [|done].
  destruct (errors_of a); [|done].
  by injection Hinit as <- _.
Qed.

(** The bucket dictionary after the two statements that end [add]. *)
Lemma add_grid_lookup (grid : gmap Cell (list Key)) case_id key c :
  alter (λ bucket, bucket ++ [key]) case_id
    (match grid !! case_id with
     | None => <[case_id := []]> grid
     | Some _ => grid
     end) !! c =
  if decide (case_id = c) then Some (default [] (grid !! case_id) ++ [key])
  else grid !! c.
Proof.
  case_decide as Hc.
  - subst c. rewrite lookup_alter_eq.
    destruct (grid !! case_id) as [bucket|] eqn:Hb.
    + by rewrite Hb.
    + by rewrite lookup_insert_eq.
  - rewrite lookup_alter_ne by done.
    destruct (grid !! case_id); [done|]. by rewrite lookup_insert_ne.
Qed.

(** [add] either skips the point or stores it in both dictionaries. *)
Lemma add_cases (g : GeoGrid Cell) key p verbose :
  (∃ e, _computeCaseId encode g p = Raised e ∧
        add encode g key p verbose =
          Returned (g, if verbose then [WrongCoordinates p key] else [])) ∨
  (∃ case_id g',
      _computeCaseId encode g p = Returned case_id ∧
      add encode g key p verbose = Returned (g', []) ∧
      _precision g' = _precision g ∧ _avg_radius g' = _avg_radius g ∧
      _keys g' = <[key := Entry case_id p]> (_keys g) ∧
      ∀ c, _grid g' !! c =
             if decide (case_id = c)
             then Some (default [] (_grid g !! case_id) ++ [key])
             else _grid g !! c).
Proof.
  unfold add. destruct (_computeCaseId encode g p) as [case_id|e].
  - right. eexists case_id, _. repeat split; try reflexivity.
    intros c. cbn [_grid]. apply add_grid_lookup.
  - left. by exists e.
Qed.

Lemma add_keys_in_buckets (g g' : GeoGrid Cell) key p verbose out :
  keys_in_buckets g →
  add encode g key p verbose = Returned (g', out) →
  keys_in_buckets g'.
Proof.
  intros Hg Hadd.
  destruct (add_cases g key p verbose)
    as [(e & _ & Hskip)|(case_id & g1 & _ & Hput & _ & _ & Hkeys & Hgrid)].
  - rewrite Hskip in Hadd. by injection Hadd as <- _.
  - rewrite Hput in Hadd. injection Hadd as <- _.
    intros k e. rewrite Hkeys, lookup_insert. case_decide as Hk.
    + intros [= <-]. subst k. cbn [case]. rewrite Hgrid.
      rewrite decide_True by done. eexists; split; [done|].
      apply elem_of_app. right. by apply list_elem_of_singleton.
    + intros Hold. destruct (Hg k e Hold) as (bucket & Hb & Hin).
      rewrite Hgrid. case_decide as Hc.
      * subst case_id. rewrite Hb. cbn [default]. eexists; split; [done|].
        apply elem_of_app. by left.
      * by exists bucket.
Qed.

Lemma add_buckets_in_keys (g g' : GeoGrid Cell) key p verbose out :
  buckets_in_keys g →
  add encode g key p verbose = Returned (g', out) →
  buckets_in_keys g'.
Proof.
  intros Hg Hadd.
  destruct (add_cases g key p verbose)
    as [(e & _ & Hskip)|(case_id & g1 & _ & Hput & _ & _ & Hkeys & Hgrid)].
  - rewrite Hskip in Hadd. by injection Hadd as <- _.
  - rewrite Hput in Hadd. injection Hadd as <- _.
    intros c bucket k. rewrite Hgrid, Hkeys, lookup_insert.
    case_decide as Hc; intros Hb Hin; case_decide; try done.
    + injection Hb as <-. apply elem_of_app in Hin as [Hin|Hin].
      * destruct (_grid g !! case_id) as [old|] eqn:Hold;
          [by eapply Hg|by apply elem_of_nil in Hin].
      * by apply list_elem_of_singleton in Hin.
    + by eapply Hg.
Qed.

Lemma reachable_consistent (g : GeoGrid Cell) :
  reachable encode g → keys_in_buckets g ∧ buckets_in_keys g.
Proof.
  induction 1 as [precision radius verbose g out Hinit
                 |g key p verbose g' out _ [IH1 IH2] Hadd].
  - apply __init___empty in Hinit as [Hk Hg]. split.
    + intros key e. by rewrite Hk, lookup_empty.
    + intros c bucket key. by rewrite Hg, lookup_empty.
  - split; [by eapply add_keys_in_buckets|by eapply add_buckets_in_keys].
Qed.

Lemma reachable_add_all (g : GeoGrid Cell) points :
  reachable encode g → reachable encode (add_all encode g points).
Proof.
  revert g. induction points as [|[key p] points IH]; intros g Hg; [done|].
  unfold add_all. cbn [foldl fst snd]. apply IH.
  destruct (add_cases g key p true) as [(e & _ & ->)|(c & g' & _ & Hput & _)];
    [done|].
  rewrite Hput. by eapply reachable_add.
Qed.

End Index.

(** ** Insertion *)

Lemma World_init :
  __init__ (Cell := Plane.cell) 5 (Some (Int 20)) true =
    Returned (MkGeoGrid 4 20 ∅ ∅, [SettingPrecision 4 20]).
Proof. reflexivity. Qed.

Lemma World_reachable points :
  reachable World.encode (add_all World.encode (MkGeoGrid 4 20 ∅ ∅) points).
Proof.
  apply reachable_add_all. eapply reachable_init. apply World_init.
Qed.

(** C7. When the point of an insertion is [None], is no pair of numbers,
    or is a pair the encoder rejects, [add] returns normally (it raises
    nothing) and the index it leaves is the index it was given: both
    dictionaries, the precision and the average radius are untouched.
    Its only effect is the diagnostic, printed when [verbose] is set. *)
Theorem add_invalid_point_leaves_index_unchanged
    {Cell : Type} `{Countable Cell} (encode : Q → Q → Z → outcome Cell)
    (g : GeoGrid Cell) (key : Key) (p : coords) (verbose : bool) :
  (p = NoCoords ∨ (∃ repr, p = BadCoords repr) ∨
   ∃ lat lng e, p = Coords lat lng ∧ encode lat lng (_precision g) = Raised e) →
  ∃ out, add encode g key p verbose = Returned (g, out) ∧
         out = if verbose then [WrongCoordinates p key] else [].
Proof.
  intros Hbad.
  assert (∃ e, _computeCaseId encode g p = Raised e) as [e He].
  { destruct Hbad as [->|[[repr ->]|(lat & lng & e & -> & He)]];
      [by exists TypeError|by exists TypeError|by exists e]. }
  eexists. split; [|reflexivity].
  unfold add. by rewrite He.
Qed.

Lemma add_invalid_point_leaves_index_unchanged_witness :
  ∃ out, add World.encode World.airports "LHR" (Coords 151 0) true
           = Returned (World.airports, out) ∧
         out = [WrongCoordinates (Coords 151 0) "LHR"].
Proof.
  apply (add_invalid_point_leaves_index_unchanged
           World.encode World.airports "LHR" (Coords 151 0) true).
  right; right. exists 151%Q, 0%Q, ValueError. split; reflexivity.
Defined.

(** C9. In every index built by a constructor call and any sequence of
    [add] calls (the same key may come again, at the same or another
    point), each key of [_keys] is a member of the bucket that [_grid]
    holds for the cell recorded with the key. *)
Theorem key_in_bucket_of_its_cell
    {Cell : Type} `{Countable Cell} (encode : Q → Q → Z → outcome Cell)
    (g : GeoGrid Cell) (key : Key) (e : entry Cell) :
  reachable encode g →
  _keys g !! key = Some e →
  ∃ bucket, _grid g !! case e = Some bucket ∧ key ∈ bucket.
Proof.
  intros Hg Hkey.
  destruct (reachable_consistent encode g Hg) as [Hkeys _].
  exact (Hkeys key e Hkey).
Qed.

Lemma key_in_bucket_of_its_cell_witness :
  ∃ bucket, _grid World.moved !! (6, 2) = Some bucket ∧ "ORY"%string ∈ bucket.
Proof.
  apply (key_in_bucket_of_its_cell World.encode World.moved "ORY"
           (Entry (6, 2) (Coords 10 100))).
  - apply World_reachable.
  - vm_compute. reflexivity.
Defined.

(** ** Queries on a point the encoder rejects *)

Lemma empty_restriction_returns_empty_aux
    {Cell : Type} `{Countable Cell} (encode : Q → Q → Z → outcome Cell)
    (neighbors : Cell → list Cell) (haversine : coords → coords → Q)
    (pep479 : bool) (g : GeoGrid Cell) (p : coords) (N : Z)
    (double_check : bool) :
  findClosestFromPoint encode neighbors haversine pep479 g p N double_check
    (Some ∅) = Returned [].
Proof.
  unfold findClosestFromPoint.
  rewrite bool_decide_eq_true_2; reflexivity.
Qed.

(** C8. With a restriction set that is given and empty,
    [findClosestFromPoint] returns the empty list.  The result does not
    depend on the encoder, the neighbour function, the distance, the
    interpreter, the index or the point: the call returns before the
    point is encoded and before any frontier is asked for, so the guard
    of the frontier generator cannot trip. *)
Theorem empty_restriction_returns_empty
    {Cell : Type} `{Countable Cell} (encode : Q → Q → Z → outcome Cell)
    (neighbors : Cell → list Cell) (haversine : coords → coords → Q)
    (pep479 : bool) (g : GeoGrid Cell) (p : coords) (N : Z)
    (double_check : bool) :
  findClosestFromPoint encode neighbors haversine pep479 g p N double_check
    (Some ∅) = Returned [].
Proof.
  unfold findClosestFromPoint.
  rewrite bool_decide_eq_true_2; reflexivity.
Qed.

(** C10. A point that is not [None] and on which the encoding step
    fails makes both point queries raise the exception of that step:
    [findNearPoint] always, [findClosestFromPoint] whenever it gets past
    the test of the restriction set.  [add] on the same point catches it
    and returns. *)
Theorem point_queries_propagate_encoder_failure
    {Cell : Type} `{Countable Cell} (encode : Q → Q → Z → outcome Cell)
    (neighbors : Cell → list Cell) (haversine : coords → coords → Q)
    (pep479 : bool) (g : GeoGrid Cell) (p : coords) (e : exn) :
  p ≠ NoCoords →
  _computeCaseId encode g p = Raised e →
  (∀ radius double_check,
     findNearPoint encode neighbors haversine pep479 g p radius double_check
       = Raised e) ∧
  (∀ N double_check from_keys, from_keys ≠ Some ∅ →
     findClosestFromPoint encode neighbors haversine pep479 g p N
       double_check from_keys = Raised e) ∧
  (∀ key verbose, ∃ out, add encode g key p verbose = Returned (g, out)).
Proof.
  intros Hp He. repeat split.
  - intros radius double_check. unfold findNearPoint.
    destruct p; [done| |]; by rewrite He.
  - intros N double_check from_keys Hfrom. unfold findClosestFromPoint.
    rewrite bool_decide_eq_false_2 by done. by rewrite He.
  - intros key verbose. unfold add. rewrite He. by eexists.
Qed.

Lemma point_queries_propagate_encoder_failure_witness :
  (∀ radius double_check,
     findNearPoint World.encode World.neighbors Plane.distance true
       World.airports (Coords 151 0) radius double_check
       = Raised ValueError) ∧
  (∀ N double_check from_keys, from_keys ≠ Some ∅ →
     findClosestFromPoint World.encode World.neighbors Plane.distance true
       World.airports (Coords 151 0) N double_check from_keys
       = Raised ValueError) ∧
  (∀ key verbose, ∃ out,
     add World.encode World.airports key (Coords 151 0) verbose
       = Returned (World.airports, out)).
Proof.
  apply (point_queries_propagate_encoder_failure World.encode World.neighbors
           Plane.distance true World.airports (Coords 151 0) ValueError).
  - discriminate.
  - reflexivity.
Defined.

(** ** The precision table and the index *)

Lemma errors_of_table precision errors :
  errors_of precision = Returned errors →
  ∃ x, x ∈ precision_to_errors ∧ x.1 = precision ∧ km_error x = errors.2.
Proof.
  unfold errors_of.
  destruct (list_find _ _) as [[i x]|] eqn:Hfind; [|done].
  intros [= <-]. apply list_find_Some in Hfind as (Hx & Hp & _).
  exists x. split; [by eapply list_elem_of_lookup_2|done].
Qed.

Lemma __init___table {Cell : Type} `{Countable Cell}
    precision radius verbose (g : GeoGrid Cell) out :
  __init__ precision radius verbose = Returned (g, out) →
  ∃ x, x ∈ precision_to_errors ∧ _precision g = x.1 ∧ _avg_radius g = km_error x.
Proof.
  unfold __init__, mbind, outcome_bind, bind. intros Hinit.
  destruct (match radius with Some r => _ | None => _ end) as [q|]; [|done].
  destruct (errors_of q) as [errors|] eqn:Herr; [|done].
  injection Hinit as <- _. cbn [_precision _avg_radius].
  apply errors_of_table in Herr as (x & Hx & <- & Hkm). by exists x.
Qed.

Lemma reachable_table {Cell : Type} `{Countable Cell}
    (encode : Q → Q → Z → outcome Cell) (g : GeoGrid Cell) :
  reachable encode g →
  ∃ x, x ∈ precision_to_errors ∧ _precision g = x.1 ∧ _avg_radius g = km_error x.
Proof.
  induction 1 as [precision radius verbose g out Hinit
                 |g key p verbose g' out _ IH Hadd].
  - by eapply __init___table.
  - destruct (add_cases encode g key p verbose)
      as [(e & _ & Hskip)|(c & g1 & _ & Hput & Hp & Ha & _)].
    + rewrite Hskip in Hadd. by injection Hadd as <- _.
    + rewrite Hput in Hadd. injection Hadd as <- _. by rewrite Hp, Ha.
Qed.

(** Converted to a float, every error of the table is finite and
    positive. *)
Lemma km_error_float x :
  x ∈ precision_to_errors →
  ∃ m e, float_of (km_error x) = Returned (S754_finite false m e).
Proof.
  unfold precision_to_errors. intros Hx.
  repeat (apply elem_of_cons in Hx as [->|Hx];
          [eexists _, _; vm_compute; reflexivity|]).
  by apply elem_of_nil in Hx.
Qed.

Lemma reachable_avg_radius_float {Cell : Type} `{Countable Cell}
    (encode : Q → Q → Z → outcome Cell) (g : GeoGrid Cell) :
  reachable encode g →
  ∃ m e, float_of (_avg_radius g) = Returned (S754_finite false m e).
Proof.
  intros (x & Hx & _ & ->)%reachable_table. by apply km_error_float.
Qed.

(** ** Radius search: how many frontiers are expanded *)

Lemma SFdiv_signed_positive r m e :
  signed false r → signed false (SFdiv prec emax r (S754_finite false m e)).
Proof.
  intros [->|[->|(m' & e' & ->)]].
  - by left.
  - right. by left.
  - apply (SFdiv_signed false m' e' false m e).
Qed.

(** The frontier count with the conversions spelled out: the floor of
    the binary64 quotient, and [OverflowError] when the radius or the
    quotient is too large for a float. *)
Lemma near_rings_floor {Cell : Type} `{Countable Cell}
    (g : GeoGrid Cell) (radius : Q) m e :
  float_of (_avg_radius g) = Returned (S754_finite false m e) →
  (0 <= radius)%Q →
  near_rings g radius =
    (r ← float_of_value radius;
     if num_eqb (Float r) (_avg_radius g) then Returned 2
     else match SFdiv prec emax r (S754_finite false m e) with
          | S754_infinity _ => Raised OverflowError
          | quotient => Returned (Qfloor (F2Q quotient) + 2)
          end).
Proof.
  intros Havg Hr. unfold near_rings, float_of_value.
  pose proof (round64_signed radius Hr) as Hsigned.
  destruct (finite_or_overflow (round64 radius)) as [r|err] eqn:Hfloat; [|done].
  assert (r = round64 radius) as ->.
  { unfold finite_or_overflow in Hfloat.
    destruct (round64 radius); by try injection Hfloat as <-. }
  cbn [mbind outcome_bind bind].
  destruct (num_eqb _ _); [done|].
  unfold float_div. rewrite Havg. cbn [mbind outcome_bind bind].
  pose proof (SFdiv_signed_positive _ m e Hsigned) as Hq.
  destruct (int (SFdiv prec emax (round64 radius) (S754_finite false m e)))
    as [n|err] eqn:Hint.
  - apply (int_floor _ _ Hq) in Hint as Hn. subst n.
    destruct Hq as [Hq|[Hq|(m' & e' & Hq)]]; rewrite Hq in *; done.
  - destruct Hq as [Hq|[Hq|(m' & e' & Hq)]]; rewrite Hq in *; done.
Qed.

(** A radius that is not negative asks for two frontiers at least, and
    the count fails with [OverflowError] only. *)
Lemma near_rings_cases {Cell : Type} `{Countable Cell}
    (encode : Q → Q → Z → outcome Cell) (g : GeoGrid Cell) (radius : Q) :
  reachable encode g → (0 <= radius)%Q →
  match near_rings g radius with
  | Returned N => 2 ≤ N
  | Raised e => e = OverflowError
  end.
Proof.
  intros (m & e & Havg)%reachable_avg_radius_float Hr.
  unfold near_rings, float_of_value.
  pose proof (round64_signed radius Hr) as Hsigned.
  destruct (finite_or_overflow (round64 radius)) as [r|err] eqn:Hfloat.
  - assert (r = round64 radius) as ->.
    { unfold finite_or_overflow in Hfloat.
      destruct (round64 radius); by try injection Hfloat as <-. }
    cbn [mbind outcome_bind bind].
    destruct (num_eqb _ _); [done|].
    unfold float_div. rewrite Havg. cbn [mbind outcome_bind bind].
    pose proof (SFdiv_signed_positive _ m e Hsigned) as Hq.
    destruct (int (SFdiv prec emax (round64 radius) (S754_finite false m e)))
      as [n|err] eqn:Hint; cbn [mbind outcome_bind bind].
    + apply (int_signed _ _ Hq) in Hint. lia.
    + by eapply int_raised.
  - unfold finite_or_overflow in Hfloat.
    destruct (round64 radius); by try injection Hfloat as <-.
Qed.

(** C6 (as the code has it).  For a radius that is not negative, the
    frontier count of [findNearPoint] and [findNearKey] is 2 when the
    radius, converted to a float, equals the average cell error of the
    index, and otherwise 2 more than the floor of their quotient as
    binary64 division rounds it.  When the radius or the quotient is too
    large for a float the search raises [OverflowError] and expands
    nothing.  Otherwise the candidates are the keys of the buckets of
    the frontiers around the starting cell, as many frontiers as the
    count says but never more than [MAX_RECURSIVE_FRONTIER + 1], where
    the guard of the frontier generator ends the expansion. *)
Theorem near_search_ring_count
    {Cell : Type} `{Countable Cell} (encode : Q → Q → Z → outcome Cell)
    (neighbors : Cell → list Cell) (haversine : coords → coords → Q)
    (pep479 : bool) (g : GeoGrid Cell) (radius : Q) :
  reachable encode g →
  (0 <= radius)%Q →
  (∃ avg, float_of (_avg_radius g) = Returned avg ∧
     near_rings g radius =
       (r ← float_of_value radius;
        if num_eqb (Float r) (_avg_radius g) then Returned 2
        else match SFdiv prec emax r avg with
             | S754_infinity _ => Raised OverflowError
             | quotient => Returned (Qfloor (F2Q quotient) + 2)
             end)) ∧
  match near_rings g radius with
  | Raised err =>
      err = OverflowError ∧
      (∀ p case_id double_check,
         p ≠ NoCoords → _computeCaseId encode g p = Returned case_id →
         findNearPoint encode neighbors haversine pep479 g p radius double_check
           = Raised OverflowError) ∧
      (∀ key e double_check,
         _keys g !! key = Some e →
         findNearKey neighbors haversine pep479 g key radius double_check
           = Raised OverflowError)
  | Returned N =>
      2 ≤ N ∧
      ∀ case_id,
        let rings := _recursiveFrontier neighbors case_id N true in
        let candidate :=
          Gen (frontier ← yielded rings; _allKeysInCases g (elements frontier))
              (ending_of (surfaced pep479 (stop rings))) in
        length (yielded rings) = Z.to_nat (Z.min N (MAX_RECURSIVE_FRONTIER + 1)) ∧
        (∀ p double_check,
           p ≠ NoCoords → _computeCaseId encode g p = Returned case_id →
           findNearPoint encode neighbors haversine pep479 g p radius double_check =
             Returned (if double_check
                       then _check_distance haversine g candidate p (Fin radius)
                       else zero_dist candidate)) ∧
        (∀ key e double_check,
           _keys g !! key = Some e → case e = case_id →
           findNearKey neighbors haversine pep479 g key radius double_check =
             Returned (if double_check
                       then _check_distance haversine g candidate (lat_lng e)
                              (Fin radius)
                       else zero_dist candidate))
  end.
Proof.
  intros Hg Hr. split.
  { destruct (reachable_avg_radius_float encode g Hg) as (m & e & Havg).
    eexists. split; [exact Havg|]. by apply near_rings_floor. }
  pose proof (near_rings_cases encode g radius Hg Hr) as Hcases.
  destruct (near_rings g radius) as [N|err] eqn:HN.
  - split; [done|]. intros case_id rings candidate.
    split; [apply (_recursiveFrontier_length neighbors case_id N true)|].
    split.
    + intros p double_check Hp Hcase. unfold findNearPoint, _findNearCase.
      destruct p; [done| |]; rewrite Hcase, HN; cbn [mbind outcome_bind bind];
        by destruct double_check.
    + intros key e double_check Hkey <-. unfold findNearKey, _findNearCase.
      rewrite Hkey, HN. cbn [mbind outcome_bind bind]. by destruct double_check.
  - subst err. split; [done|]. split.
    + intros p case_id double_check Hp Hcase. unfold findNearPoint, _findNearCase.
      destruct p; [done| |]; by rewrite Hcase, HN.
    + intros key e double_check Hkey. unfold findNearKey, _findNearCase.
      by rewrite Hkey, HN.
Qed.

Lemma World_airports_rings : near_rings World.airports 30 = Returned 3.
Proof. vm_compute. reflexivity. Qed.

Lemma near_search_ring_count_witness :
  (∃ avg, float_of (_avg_radius World.airports) = Returned avg ∧
     near_rings World.airports 30 =
       (r ← float_of_value 30;
        if num_eqb (Float r) (_avg_radius World.airports) then Returned 2
        else match SFdiv prec emax r avg with
             | S754_infinity _ => Raised OverflowError
             | quotient => Returned (Qfloor (F2Q quotient) + 2)
             end)) ∧
  2 ≤ 3 ∧
  ∀ case_id,
    let rings := _recursiveFrontier World.neighbors case_id 3 true in
    let candidate :=
      Gen (frontier ← yielded rings;
           _allKeysInCases World.airports (elements frontier))
          (ending_of (surfaced true (stop rings))) in
    length (yielded rings) = Z.to_nat (Z.min 3 (MAX_RECURSIVE_FRONTIER + 1)) ∧
    (∀ p double_check,
       p ≠ NoCoords →
       _computeCaseId World.encode World.airports p = Returned case_id →
       findNearPoint World.encode World.neighbors Plane.distance true
         World.airports p 30 double_check =
         Returned (if double_check
                   then _check_distance Plane.distance World.airports
                          candidate p (Fin 30)
                   else zero_dist candidate)) ∧
    (∀ key e double_check,
       _keys World.airports !! key = Some e → case e = case_id →
       findNearKey World.neighbors Plane.distance true World.airports key 30
         double_check =
         Returned (if double_check
                   then _check_distance Plane.distance World.airports
                          candidate (lat_lng e) (Fin 30)
                   else zero_dist candidate)).
Proof.
  assert (0 <= 30)%Q as Hradius by discriminate.
  destruct (near_search_ring_count World.encode World.neighbors
              Plane.distance true World.airports 30
              (World_reachable _) Hradius) as [Hformula Hcount].
  rewrite World_airports_rings in Hcount. split; [exact Hformula|exact Hcount].
Defined.

Lemma World_fine_init :
  __init__ (Cell := Plane.cell) 8 None true =
    Returned (World.fine, [SettingPrecision 8 (lit 0.019)]).
Proof. reflexivity. Qed.

(** C6 as stated fails.  At precision 8 a radius of 100 asks for 5265
    frontiers and the generator stops after 5001, so that the search
    ends in [RuntimeError] under PEP 479; a radius of 1e308 makes the
    quotient infinite and the search raises [OverflowError]; and at
    precision 6 the radius 4.27 expands 8 frontiers, not the 9 that
    [floor(4.27 / 0.61) + 2] is in exact arithmetic. *)
Lemma near_search_rings_capped :
  near_rings World.fine 100 = Returned 5265 ∧
  Z.of_nat (length (yielded (_recursiveFrontier World.neighbors (4, 3)
                               5265 true))) = 5001 ∧
  (∃ gen, findNearPoint World.encode World.neighbors Plane.distance true
            World.fine World.orly 100 false = Returned gen ∧
          stop gen = Failed RuntimeError) ∧
  findNearPoint World.encode World.neighbors Plane.distance true
    World.fine World.orly 1e308 false = Raised OverflowError ∧
  near_rings (MkGeoGrid (Cell := Plane.cell) 6 (lit 0.61) ∅ ∅) 4.27
    = Returned 8 ∧
  Qfloor (4.27 / 0.61) + 2 = 9.
Proof.
  split; [vm_compute; reflexivity|]. split.
  { rewrite _recursiveFrontier_length. reflexivity. }
  split.
  { eexists. split; [vm_compute; reflexivity|reflexivity]. }
  split; [vm_compute; reflexivity|].
  split; [vm_compute; reflexivity|reflexivity].
Qed.

(** ** Unbounded expansion *)

(** C3 (as the code has it).  Unbounded expansion always ends: the
    generator yields one frontier for every loop index that passes the
    guard [i > MAX_RECURSIVE_FRONTIER] and then leaves its body by
    [raise StopIteration] (after printing a warning), however many values
    [itertools.count()] could still give.  The generator has no
    distinguished result for this.  A consumer that used up the
    frontiers sees the iteration end as any other before PEP 479, and a
    [RuntimeError] under PEP 479: when its loop was not left by [break],
    [findClosestFromPoint] returns the keys it has accumulated as an
    ordinary result in the first case and raises in the second. *)
Theorem unbounded_frontier_stops_at_guard
    {Cell : Type} `{Countable Cell} (encode : Q → Q → Z → outcome Cell)
    (neighbors : Cell → list Cell) (haversine : coords → coords → Q)
    (g : GeoGrid Cell) (p : coords) (case_id : Cell) (N : Z)
    (from_keys : option (gset Key)) (found : gset Key) :
  let rings := _recursiveFrontier neighbors case_id 1 false in
  from_keys ≠ Some ∅ →
  _computeCaseId encode g p = Returned case_id →
  closest_loop g (Z.min N (Z.of_nat (size (_keys g)))) from_keys
    (yielded rings) ∅ = (found, false) →
  (∀ fuel, MAX_RECURSIVE_FRONTIER + 2 ≤ Z.of_nat fuel →
     frontiers neighbors fuel 0 {[case_id]} {[case_id]} = rings) ∧
  Z.of_nat (length (yielded rings)) = MAX_RECURSIVE_FRONTIER + 1 ∧
  stop rings = StopIterationRaised ∧
  findClosestFromPoint encode neighbors haversine false g p N false from_keys
    = Returned ((λ f, (0%Q, f)) <$> elements found) ∧
  (∀ double_check,
     findClosestFromPoint encode neighbors haversine true g p N double_check
       from_keys = Raised RuntimeError).
Proof.
  intros rings Hfrom Hcase Hloop.
  pose proof MAX_RECURSIVE_FRONTIER_nonneg as Hmax.
  assert (stop rings = StopIterationRaised) as Hstop.
  { unfold rings. rewrite _recursiveFrontier_stop.
    by rewrite decide_True by (by left). }
  split; [|split; [|split; [|split]]].
  - intros fuel Hfuel. unfold rings, _recursiveFrontier.
    rewrite frontiers_enough by lia. f_equal; lia.
  - unfold rings. rewrite _recursiveFrontier_length. lia.
  - done.
  - unfold findClosestFromPoint. rewrite bool_decide_eq_false_2 by done.
    rewrite Hcase. cbn [mbind outcome_bind bind]. fold rings.
    by rewrite Hloop.
  - intros double_check.
    unfold findClosestFromPoint. rewrite bool_decide_eq_false_2 by done.
    rewrite Hcase. cbn [mbind outcome_bind bind]. fold rings.
    by rewrite Hloop, Hstop.
Qed.

Lemma unbounded_frontier_stops_at_guard_witness :
  let rings := _recursiveFrontier World.neighbors (4, 3) 1 false in
  (∀ fuel, MAX_RECURSIVE_FRONTIER + 2 ≤ Z.of_nat fuel →
     frontiers World.neighbors fuel 0 {[(4, 3)]} {[(4, 3)]} = rings) ∧
  Z.of_nat (length (yielded rings)) = MAX_RECURSIVE_FRONTIER + 1 ∧
  stop rings = StopIterationRaised ∧
  findClosestFromPoint World.encode World.neighbors Plane.distance false
    World.triplet World.roissy 1 false (Some {["X"%string]})
    = Returned ((λ f, (0%Q, f)) <$> elements (∅ : gset Key)) ∧
  (∀ double_check,
     findClosestFromPoint World.encode World.neighbors Plane.distance true
       World.triplet World.roissy 1 double_check (Some {["X"%string]})
       = Raised RuntimeError).
Proof.
  apply (unbounded_frontier_stops_at_guard World.encode World.neighbors
           Plane.distance World.triplet World.roissy (4, 3) 1
           (Some {["X"%string]}) ∅).
  - by intros [= ?].
  - reflexivity.
  - vm_compute. reflexivity.
Defined.

(** C3 as stated fails.  The frontiers yielded are 5001, one more than
    [MAX_RECURSIVE_FRONTIER]; and before PEP 479 a search that ran into
    the guard answers with an empty list, which is also the answer to an
    empty restriction set. *)
Lemma unbounded_frontier_exceeds_cap_silently :
  MAX_RECURSIVE_FRONTIER <
    Z.of_nat (length (yielded (_recursiveFrontier World.neighbors (4, 3) 1 false))) ∧
  stop (_recursiveFrontier World.neighbors (4, 3) 1 false) = StopIterationRaised ∧
  findClosestFromPoint World.encode World.neighbors Plane.distance false
    World.triplet World.roissy 1 false (Some {["X"%string]}) = Returned [] ∧
  findClosestFromPoint World.encode World.neighbors Plane.distance false
    World.triplet World.roissy 1 false (Some ∅) = Returned [].
Proof.
  split; [|split; [|split]].
  - rewrite _recursiveFrontier_length. reflexivity.
  - rewrite _recursiveFrontier_stop. reflexivity.
  - vm_compute. reflexivity.
  - reflexivity.
Qed.

(** ** Choice of the precision *)

Section MinBy.
Context {A K : Type} (ltb : K → K → bool) (key : A → outcome K).
Hypothesis ltb_irrefl : ∀ a, ltb a a = false.
Hypothesis ltb_trans : ∀ a b c,
  ltb a b = true → ltb b c = true → ltb a c = true.

(** From a best element on, [min] returns an element whose key is the
    best key or below it, and no key of the remaining elements is below
    the key of that element; it raises what a key raises. *)
Lemma min_from_least (l : list A) : ∀ best kbest,
  match min_from ltb key best kbest l with
  | Returned x =>
      x ∈ best :: l ∧
      ∃ k, (x = best ∧ k = kbest ∨ key x = Returned k ∧ ltb k kbest = true) ∧
           ∀ y, y ∈ l → ∃ ky, key y = Returned ky ∧ ltb ky k = false
  | Raised e => ∃ y, y ∈ l ∧ key y = Raised e
  end.
Proof.
  induction l as [|y l IH]; intros best kbest; cbn [min_from].
  - split; [by left|]. exists kbest. split; [by left|].
    intros y Hy. by apply elem_of_nil in Hy.
  - destruct (key y) as [ky|e] eqn:Hky; cbn [mbind outcome_bind bind];
      [|exists y; split; [by left|done]].
    destruct (ltb ky kbest) eqn:Hlt.
    + specialize (IH y ky).
      destruct (min_from ltb key y ky l) as [x|e];
        [|destruct IH as (z & Hz & He); exists z; split; [by right|done]].
      destruct IH as (Hin & k & Hk & Hleast).
      split; [by right|]. exists k. split.
      * right. destruct Hk as [[-> ->]|[Hx Hxy]]; [done|].
        split; [done|]. by eapply ltb_trans.
      * intros z [->|Hz]%elem_of_cons; [|by apply Hleast].
        exists ky. split; [done|].
        destruct Hk as [[_ ->]|[_ Hxy]]; [apply ltb_irrefl|].
        destruct (ltb ky k) eqn:Hyx; [|done].
        pose proof (ltb_irrefl k) as Hirr.
        by rewrite (ltb_trans _ _ _ Hxy Hyx) in Hirr.
    + specialize (IH best kbest).
      destruct (min_from ltb key best kbest l) as [x|e];
        [|destruct IH as (z & Hz & He); exists z; split; [by right|done]].
      destruct IH as (Hin & k & Hk & Hleast).
      split.
      { apply elem_of_cons in Hin as [->|Hin]; [by left|by do 2 right]. }
      exists k. split; [done|].
      intros z [->|Hz]%elem_of_cons; [|by apply Hleast].
      exists ky. split; [done|].
      destruct Hk as [[_ ->]|[_ Hxb]]; [done|].
      destruct (ltb ky k) eqn:Hyx; [|done].
      by rewrite (ltb_trans _ _ _ Hyx Hxb) in Hlt.
Qed.

(** [min] over a list: the element returned has a key, and no element
    has a key below it. *)
Lemma min_by_least (l : list A) :
  match min_by ltb key l with
  | Returned x =>
      x ∈ l ∧
      ∃ k, key x = Returned k ∧
           ∀ y, y ∈ l → ∃ ky, key y = Returned ky ∧ ltb ky k = false
  | Raised e => l = [] ∧ e = ValueError ∨ ∃ y, y ∈ l ∧ key y = Raised e
  end.
Proof.
  destruct l as [|x0 l]; cbn [min_by]; [by left|].
  destruct (key x0) as [k0|e] eqn:Hk0; cbn [mbind outcome_bind bind];
    [|right; exists x0; split; [by left|done]].
  pose proof (min_from_least l x0 k0) as Hmin.
  destruct (min_from ltb key x0 k0 l) as [x|e];
    [|destruct Hmin as (z & Hz & He); right; exists z; split; [by right|done]].
  destruct Hmin as (Hin & k & Hk & Hleast).
  split; [done|]. exists k. split; [by destruct Hk as [[-> ->]|[? _]]|].
  intros z [->|Hz]%elem_of_cons; [|by apply Hleast].
  exists k0. split; [done|].
  destruct Hk as [[_ ->]|[_ Hxb]]; [apply ltb_irrefl|].
  destruct (ltb k0 k) eqn:Hyx; [|done].
  pose proof (ltb_irrefl k0) as Hirr.
  by rewrite (ltb_trans _ _ _ Hyx Hxb) in Hirr.
Qed.

End MinBy.

Lemma Qltb_lt (a b : Q) : Qltb a b = true ↔ (a < b)%Q.
Proof.
  unfold Qltb. rewrite negb_true_iff, <- not_true_iff_false, Qle_bool_iff.
  split; [apply Qnot_le_lt|apply Qlt_not_le].
Qed.

Lemma Qltb_ge (a b : Q) : Qltb a b = false ↔ (b <= a)%Q.
Proof. unfold Qltb. by rewrite negb_false_iff, Qle_bool_iff. Qed.

(** [<] on numbers: nothing is below itself, and the order is
    transitive, [nan] included. *)
Lemma num_ltb_irrefl a : num_ltb a a = false.
Proof.
  unfold num_ltb. destruct (place_of a); cbn [place_ltb]; try done.
  apply Qltb_ge, Qle_refl.
Qed.

Lemma num_ltb_trans a b c :
  num_ltb a b = true → num_ltb b c = true → num_ltb a c = true.
Proof.
  unfold num_ltb.
  destruct (place_of a), (place_of b), (place_of c); cbn [place_ltb]; try done.
  rewrite !Qltb_lt. apply Qlt_trans.
Qed.

(** [<] on tuples [(bool, number)] in terms of the components. *)
Lemma flag_dist_ltb_false (x y : bool * number) :
  flag_dist_ltb y x = false ↔ selection_le x y.
Proof.
  destruct x as [a q], y as [b r].
  unfold flag_dist_ltb, bool_ltb, selection_le. cbn [fst snd].
  rewrite orb_false_iff, !andb_false_iff, negb_false_iff.
  destruct a, b; cbn; intuition (congruence || lia).
Qed.

Lemma flag_dist_ltb_irrefl a : flag_dist_ltb a a = false.
Proof.
  apply flag_dist_ltb_false. right. split; [done|apply num_ltb_irrefl].
Qed.

Lemma flag_dist_ltb_trans a b c :
  flag_dist_ltb a b = true → flag_dist_ltb b c = true →
  flag_dist_ltb a c = true.
Proof.
  destruct a as [a q], b as [b r], c as [c t].
  unfold flag_dist_ltb, bool_ltb. cbn [fst snd].
  destruct a, b, c; cbn; try done. all: apply num_ltb_trans.
Qed.

Lemma errors_of_entry x :
  x ∈ precision_to_errors → errors_of x.1 = Returned x.2.
Proof.
  unfold precision_to_errors. intros Hx.
  repeat (apply elem_of_cons in Hx as [->|Hx]; [reflexivity|]).
  by apply elem_of_nil in Hx.
Qed.

(** The key of an entry fails only on an [int] radius too large for a
    float. *)
Lemma selection_key_raised radius x e :
  x ∈ precision_to_errors →
  selection_key radius x = Raised e →
  e = OverflowError ∧ ∃ z, radius = Int z ∧ float_of radius = Raised OverflowError.
Proof.
  intros (m & e' & Hfloat)%km_error_float. unfold selection_key, num_sub.
  destruct radius as [z|f], (km_error x) as [z'|f'];
    cbn [mbind outcome_bind bind float_of] in *; try done.
  - unfold float_of_value, finite_or_overflow.
    destruct (round64 (inject_Z z)); cbn [mbind outcome_bind bind]; try done.
    intros [= <-]. split; [done|]. by exists z.
  - by rewrite Hfloat.
Qed.

(** The precision a radius selects, and the index the constructor
    makes of it. *)
Lemma select_precision_least (radius : number) :
  match select_precision radius with
  | Returned p =>
      ∃ x kx, x ∈ precision_to_errors ∧ x.1 = p ∧
        selection_key radius x = Returned kx ∧
        ∀ y, y ∈ precision_to_errors →
          ∃ ky, selection_key radius y = Returned ky ∧ selection_le kx ky
  | Raised e =>
      e = OverflowError ∧
      ∃ z, radius = Int z ∧ float_of radius = Raised OverflowError
  end.
Proof.
  unfold select_precision.
  pose proof (min_by_least flag_dist_ltb (selection_key radius)
                flag_dist_ltb_irrefl flag_dist_ltb_trans precision_to_errors)
    as Hmin.
  destruct (min_by flag_dist_ltb (selection_key radius) precision_to_errors)
    as [x|e]; cbn [mbind outcome_bind bind].
  - destruct Hmin as (Hx & kx & Hkx & Hleast).
    exists x, kx. split; [done|]. split; [done|]. split; [done|].
    intros y Hy. destruct (Hleast y Hy) as (ky & Hky & Hle).
    exists ky. split; [done|]. by apply flag_dist_ltb_false.
  - destruct Hmin as [[Hnil _]|(y & Hy & Hraised)]; [done|].
    by eapply selection_key_raised.
Qed.






(** ** The order of [sorted] on pairs of a distance and a key *)

Lemma ascii_compare_trans (a b c : ascii) (o : comparison) :
  Ascii.compare a b = o → Ascii.compare b c = o → Ascii.compare a c = o.
Proof.
  unfold Ascii.compare. destruct o; intros Hab Hbc.
  - apply N.compare_eq_iff in Hab, Hbc. apply N.compare_eq_iff. congruence.
  - exact (N.lt_trans _ _ _ Hab Hbc).
  - rewrite N.compare_gt_iff in *. exact (N.lt_trans _ _ _ Hbc Hab).
Qed.

Lemma string_compare_lt_trans (s1 : string) : ∀ s2 s3,
  String.compare s1 s2 = Lt → String.compare s2 s3 = Lt →
  String.compare s1 s3 = Lt.
Proof.
  induction s1 as [|a s1 IH]; intros [|b s2] [|c s3]; cbn; try done.
  destruct (Ascii.compare a b) eqn:Hab; try done;
    destruct (Ascii.compare b c) eqn:Hbc; try done; intros H12 H23.
  - apply Ascii.compare_eq_iff in Hab, Hbc. subst.
    rewrite (proj2 (N.compare_eq_iff _ _) eq_refl : Ascii.compare c c = Eq).
    by eapply IH.
  - apply Ascii.compare_eq_iff in Hab. subst. by rewrite Hbc.
  - apply Ascii.compare_eq_iff in Hbc. subst. by rewrite Hab.
  - by rewrite (ascii_compare_trans a b c Lt).
Qed.

Lemma string_leb_trans (s1 s2 s3 : string) :
  String.leb s1 s2 = true → String.leb s2 s3 = true → String.leb s1 s3 = true.
Proof.
  unfold String.leb.
  destruct (String.compare s1 s2) eqn:H12; try done;
    destruct (String.compare s2 s3) eqn:H23; try done; intros _ _.
  - apply String.compare_eq_iff in H12. subst s2. by rewrite H23.
  - apply String.compare_eq_iff in H12. subst s2. by rewrite H23.
  - apply String.compare_eq_iff in H23. subst s3. by rewrite H12.
  - by rewrite (string_compare_lt_trans s1 s2 s3).
Qed.

Lemma dist_key_le_spec (x y : Q * string) :
  dist_key_le x y ↔
  (x.1 < y.1)%Q ∨ ((x.1 == y.1)%Q ∧ String.leb x.2 y.2 = true).
Proof.
  unfold dist_key_le, dist_key_leb.
  by rewrite orb_true_iff, andb_true_iff, Qltb_lt, Qeq_bool_iff.
Qed.

Global Instance dist_key_le_total : Total dist_key_le.
Proof.
  intros x y. rewrite !dist_key_le_spec.
  destruct (Q_dec x.1 y.1) as [[Hlt|Hgt]|Heq]; [by left; left|by right; left|].
  destruct (String.leb_total x.2 y.2) as [Hle|Hle].
  - left; right. done.
  - right; right. split; [by symmetry|done].
Qed.

Global Instance dist_key_le_trans : Transitive dist_key_le.
Proof.
  intros x y z. rewrite !dist_key_le_spec.
  intros [Hxy|[Hxy Kxy]] [Hyz|[Hyz Kyz]].
  - left. by eapply Qlt_trans.
  - left. by rewrite <- Hyz.
  - left. by rewrite Hxy.
  - right. split; [by rewrite Hxy|by eapply string_leb_trans].
Qed.

(** [sorted] returns its argument in ascending order. *)
Lemma sorted_ascending (l : list (Q * string)) :
  StronglySorted dist_key_le (sorted l) ∧ sorted l ≡ₚ l.
Proof.
  split; [|apply merge_sort_Permutation].
  apply Sorted_StronglySorted; [apply _|]. apply Sorted_merge_sort. apply _.
Qed.

(** ** Top-N search *)

Section Closest.
Context {Cell : Type} `{Countable Cell}.
Variable haversine : coords → coords → Q.

Lemma elem_of__allKeysInCases (g : GeoGrid Cell) cases key :
  key ∈ _allKeysInCases g cases ↔
  ∃ case_id bucket,
    case_id ∈ cases ∧ _grid g !! case_id = Some bucket ∧ key ∈ bucket.
Proof.
  unfold _allKeysInCases. rewrite list_elem_of_bind. split.
  - intros (c & Hkey & Hc). destruct (_grid g !! c) as [bucket|] eqn:Hb.
    + by exists c, bucket.
    + by apply elem_of_nil in Hkey.
  - intros (c & bucket & Hc & Hb & Hkey). exists c. by rewrite Hb.
Qed.

(** Whatever the loop accumulates comes from a bucket (or was there at
    the start), and it stays inside the restriction set. *)
Lemma closest_loop_found (g : GeoGrid Cell) N from_keys rings : ∀ found0 key,
  key ∈ (closest_loop g N from_keys rings found0).1 →
  key ∈ found0 ∨
  ∃ case_id bucket, _grid g !! case_id = Some bucket ∧ key ∈ bucket.
Proof.
  induction rings as [|frontier rings IH]; intros found0 key; cbn [closest_loop].
  - by left.
  - set (found1 := found0 ∪ list_to_set (_allKeysInCases g (elements frontier))).
    set (found2 := match from_keys with
                   | Some keys => found1 ∩ keys
                   | None => found1
                   end).
    assert (key ∈ found2 → key ∈ found0 ∨
            ∃ case_id bucket, _grid g !! case_id = Some bucket ∧ key ∈ bucket)
      as Hstep.
    { intros Hk. assert (key ∈ found1) as Hk1.
      { unfold found2 in Hk.
        destruct from_keys; [by apply elem_of_intersection in Hk as [? _]|done]. }
      apply elem_of_union in Hk1 as [?|Hk1]; [by left|right].
      apply elem_of_list_to_set, elem_of__allKeysInCases in Hk1
        as (c & bucket & _ & ? & ?). by exists c, bucket. }
    destruct (_ && _); cbn [fst]; [done|].
    intros [Hk|Hk]%IH; [by apply Hstep|by right].
Qed.

Lemma closest_loop_indexed (g : GeoGrid Cell) N from_keys rings key :
  buckets_in_keys g →
  key ∈ (closest_loop g N from_keys rings ∅).1 →
  is_Some (_keys g !! key).
Proof.
  intros Hg [Hk|(c & bucket & Hb & Hk)]%closest_loop_found.
  - by apply not_elem_of_empty in Hk.
  - by eapply Hg.
Qed.

Lemma closest_loop_size (g : GeoGrid Cell) N from_keys rings :
  buckets_in_keys g →
  (size (closest_loop g N from_keys rings ∅).1 ≤ size (_keys g))%nat.
Proof.
  intros Hg. rewrite <- size_dom. apply subseteq_size.
  intros key Hk. apply elem_of_dom. by eapply closest_loop_indexed.
Qed.

(** With every candidate in [_keys] and an infinite radius,
    [_check_distance] yields each candidate with its distance and ends
    as the candidates do. *)
Lemma check_distance_from_all (g : GeoGrid Cell) candidate after ref :
  (∀ can, can ∈ candidate → is_Some (_keys g !! can)) →
  check_distance_from haversine g candidate after ref Inf =
    Gen (with_distance haversine g ref <$> candidate) after.
Proof.
  induction candidate as [|can candidate IH]; intros Hall; [done|].
  cbn [check_distance_from fmap list_fmap].
  destruct (Hall can) as [e He]; [by left|].
  unfold with_distance at 1. rewrite He. cbn [float_le].
  rewrite IH; [done|]. intros k Hk. apply Hall. by right.
Qed.

Lemma slice_to_length {A} (n : Z) (l : list A) :
  (length (slice_to n l) ≤ length l)%nat ∧
  (0 ≤ n → Z.of_nat (length (slice_to n l)) ≤ n).
Proof.
  unfold slice_to. destruct (Z.leb_spec 0 n); rewrite length_take; lia.
Qed.

End Closest.

(** What [findClosestFromPoint] does once it is past the test of the
    restriction set and the point is encoded. *)
Lemma findClosestFromPoint_unfold
    {Cell : Type} `{Countable Cell} (encode : Q → Q → Z → outcome Cell)
    (neighbors : Cell → list Cell) (haversine : coords → coords → Q)
    (pep479 : bool) (g : GeoGrid Cell) (p : coords) (N : Z)
    (double_check : bool) (from_keys : option (gset Key)) (case_id : Cell) :
  buckets_in_keys g →
  from_keys ≠ Some ∅ →
  _computeCaseId encode g p = Returned case_id →
  let n := Z.min N (Z.of_nat (size (_keys g))) in
  let loop := closest_loop g n from_keys
                (yielded (_recursiveFrontier neighbors case_id 1 false)) ∅ in
  findClosestFromPoint encode neighbors haversine pep479 g p N double_check
    from_keys =
    if negb loop.2 && pep479 then Raised RuntimeError
    else if double_check
         then Returned (slice_to n (sorted (with_distance haversine g p
                                              <$> elements loop.1)))
         else Returned ((λ f, (0%Q, f)) <$> elements loop.1).
Proof.
  intros Hg Hfrom Hcase n loop. unfold findClosestFromPoint.
  rewrite bool_decide_eq_false_2 by done.
  rewrite Hcase. cbn [mbind outcome_bind bind]. fold n. fold loop.
  assert (∀ can, can ∈ elements loop.1 → is_Some (_keys g !! can)) as Hall.
  { intros can Hcan%elem_of_elements. by eapply closest_loop_indexed. }
  rewrite (_recursiveFrontier_stop neighbors case_id 1 false).
  rewrite decide_True by (by left).
  destruct loop as [found broke]. cbn [fst snd] in *.
  unfold _check_distance. cbn [yielded stop].
  rewrite check_distance_from_all by done. cbn [yielded stop surfaced].
  by destruct broke, pep479, double_check.
Qed.

Lemma findClosestFromPoint_returned
    {Cell : Type} `{Countable Cell} (encode : Q → Q → Z → outcome Cell)
    (neighbors : Cell → list Cell) (haversine : coords → coords → Q)
    (pep479 : bool) (g : GeoGrid Cell) (p : coords) (N : Z)
    (double_check : bool) (from_keys : option (gset Key)) l :
  buckets_in_keys g →
  findClosestFromPoint encode neighbors haversine pep479 g p N double_check
    from_keys = Returned l →
  (from_keys = Some ∅ ∧ l = []) ∨
  ∃ case_id found,
    from_keys ≠ Some ∅ ∧
    _computeCaseId encode g p = Returned case_id ∧
    found = (closest_loop g (Z.min N (Z.of_nat (size (_keys g)))) from_keys
               (yielded (_recursiveFrontier neighbors case_id 1 false)) ∅).1 ∧
    l = if double_check
        then slice_to (Z.min N (Z.of_nat (size (_keys g))))
               (sorted (with_distance haversine g p <$> elements found))
        else (λ f, (0%Q, f)) <$> elements found.
Proof.
  intros Hg Hret.
  destruct (decide (from_keys = Some ∅)) as [->|Hfrom].
  { left. rewrite empty_restriction_returns_empty_aux in Hret.
    by injection Hret as <-. }
  right.
  destruct (_computeCaseId encode g p) as [case_id|e] eqn:Hcase.
  - rewrite (findClosestFromPoint_unfold _ _ _ _ _ _ _ _ _ case_id)
      in Hret by done.
    exists case_id. eexists. split; [done|]. split; [done|].
    split; [reflexivity|]. cbv zeta in Hret.
    destruct (negb _ && pep479); [discriminate Hret|].
    set (X := closest_loop _ _ _ _ _) in *. clearbody X.
    destruct double_check; injection Hret as Hl; exact (eq_sym Hl).
  - unfold findClosestFromPoint in Hret.
    rewrite bool_decide_eq_false_2 in Hret by done. by rewrite Hcase in Hret.
Qed.

Lemma findClosestFromPoint_length
    {Cell : Type} `{Countable Cell} (encode : Q → Q → Z → outcome Cell)
    (neighbors : Cell → list Cell) (haversine : coords → coords → Q)
    (pep479 : bool) (g : GeoGrid Cell) (p : coords) (N : Z)
    (double_check : bool) (from_keys : option (gset Key)) l :
  buckets_in_keys g →
  findClosestFromPoint encode neighbors haversine pep479 g p N double_check
    from_keys = Returned l →
  (length l ≤ size (_keys g))%nat ∧
  (double_check = true → 0 ≤ N →
   Z.of_nat (length l) ≤ Z.min N (Z.of_nat (size (_keys g)))).
Proof.
  intros Hg Hret.
  apply (findClosestFromPoint_returned _ _ _ _ _ _ _ _ _ _ Hg) in Hret
    as [[_ ->]|(c & found & _ & _ & Hfound & ->)].
  { cbn [length]. split; lia. }
  assert (size found ≤ size (_keys g))%nat as Hsize
    by (subst found; by apply closest_loop_size).
  assert (length (elements found) = size found) as Hlen by done.
  destruct double_check.
  - pose proof (slice_to_length (Z.min N (Z.of_nat (size (_keys g))))
                  (sorted (with_distance haversine g p <$> elements found)))
      as [Hle Hn].
    destruct (sorted_ascending (with_distance haversine g p <$> elements found))
      as [_ Hperm].
    apply Permutation_length in Hperm. rewrite length_fmap, Hlen in Hperm.
    split; [by rewrite Hperm in Hle; etrans|].
    intros _ HN. apply Hn. lia.
  - rewrite length_fmap, Hlen. split; [done|]. discriminate.
Qed.

(** C2 (as the code has it).  On an index built by the constructor and
    [add], a list returned by [findClosestFromPoint] is never longer
    than the number of indexed keys.  With [double_check] and [N] not
    negative it is cut to [N] clamped to that number.  Without
    [double_check] nothing is cut: every key the loop has accumulated is
    returned, so [N] does not bound the length.  Before PEP 479 a point
    that can be encoded always gets a list. *)
Theorem closest_result_length
    {Cell : Type} `{Countable Cell} (encode : Q → Q → Z → outcome Cell)
    (neighbors : Cell → list Cell) (haversine : coords → coords → Q)
    (pep479 : bool) (g : GeoGrid Cell) (p : coords) (N : Z)
    (double_check : bool) (from_keys : option (gset Key)) :
  reachable encode g →
  let result := findClosestFromPoint encode neighbors haversine pep479 g p N
                  double_check from_keys in
  (pep479 = false → (∃ case_id, _computeCaseId encode g p = Returned case_id) →
   ∃ l, result = Returned l) ∧
  (∀ l, result = Returned l →
     (length l ≤ size (_keys g))%nat ∧
     (double_check = true → 0 ≤ N →
      Z.of_nat (length l) ≤ Z.min N (Z.of_nat (size (_keys g)))) ∧
     (double_check = false → from_keys ≠ Some ∅ →
      ∃ case_id,
        _computeCaseId encode g p = Returned case_id ∧
        length l =
          size (closest_loop g (Z.min N (Z.of_nat (size (_keys g)))) from_keys
                  (yielded (_recursiveFrontier neighbors case_id 1 false)) ∅).1)).
Proof.
  intros Hreach result.
  destruct (reachable_consistent encode g Hreach) as [_ Hg].
  split.
  - intros -> [case_id Hcase].
    destruct (decide (from_keys = Some ∅)) as [->|Hfrom].
    + exists []. apply empty_restriction_returns_empty_aux.
    + unfold result.
      rewrite (findClosestFromPoint_unfold _ _ _ _ _ _ _ _ _ case_id) by done.
      cbv zeta. rewrite andb_false_r. destruct double_check; by eexists.
  - intros l Hret.
    destruct (findClosestFromPoint_length _ _ _ _ _ _ _ _ _ _ Hg Hret)
      as [Hkeys Hcut].
    split; [done|]. split; [done|].
    intros -> Hfrom.
    apply (findClosestFromPoint_returned _ _ _ _ _ _ _ _ _ _ Hg) in Hret
      as [[? _]|(c & found & _ & Hcase & -> & ->)]; [done|].
    exists c. split; [done|]. by rewrite length_fmap.
Qed.

Lemma closest_result_length_witness :
  let result := findClosestFromPoint World.encode World.neighbors
                  Plane.distance false World.airports World.roissy 2 true None in
  (false = false →
   (∃ case_id, _computeCaseId World.encode World.airports World.roissy
               = Returned case_id) →
   ∃ l, result = Returned l) ∧
  (∀ l, result = Returned l →
     (length l ≤ size (_keys World.airports))%nat ∧
     (true = true → 0 ≤ 2 →
      Z.of_nat (length l) ≤ Z.min 2 (Z.of_nat (size (_keys World.airports)))) ∧
     (true = false → (None : option (gset Key)) ≠ Some ∅ →
      ∃ case_id,
        _computeCaseId World.encode World.airports World.roissy
          = Returned case_id ∧
        length l =
          size (closest_loop World.airports
                  (Z.min 2 (Z.of_nat (size (_keys World.airports)))) None
                  (yielded (_recursiveFrontier World.neighbors case_id 1 false))
                  ∅).1)).
Proof.
  apply (closest_result_length World.encode World.neighbors Plane.distance
           false World.airports World.roissy 2 true None).
  apply World_reachable.
Defined.

(** C2 as stated fails without [double_check]: three keys share a cell,
    one is asked for, three are returned. *)
Lemma closest_unrefined_exceeds_N :
  ∃ l, findClosestFromPoint World.encode World.neighbors Plane.distance false
         World.triplet World.roissy 1 false None = Returned l ∧
       snd <$> l = ["C"; "A"; "B"]%string ∧
       Z.min 1 (Z.of_nat (size (_keys World.triplet))) = 1 ∧
       (1 < length l)%nat.
Proof.
  eexists. split; [vm_compute; reflexivity|].
  split; [reflexivity|]. split; [reflexivity|]. cbn. lia.
Qed.

(** Two entries of a list in ascending order, the first at the smaller
    index: by distance, and by key when the distances are equal. *)
Lemma ascending_lookup (l : list (Q * string)) (i j : nat) x y :
  StronglySorted dist_key_le l →
  (i < j)%nat → l !! i = Some x → l !! j = Some y →
  (x.1 <= y.1)%Q ∧ ((x.1 == y.1)%Q → String.leb x.2 y.2 = true).
Proof.
  intros Hsorted Hij Hi Hj.
  assert (dist_key_le x y) as Hxy.
  { rewrite <- (take_drop (S i) l) in Hsorted.
    eapply (StronglySorted_app_1_elem_of _ _ _ x y) in Hsorted; [done| |].
    - apply list_elem_of_lookup. exists i.
      rewrite lookup_take_lt by lia. done.
    - apply list_elem_of_lookup. exists (j - S i)%nat.
      rewrite lookup_drop. by replace (S i + (j - S i))%nat with j by lia. }
  apply dist_key_le_spec in Hxy as [Hlt|[Heq Hle]].
  - split; [by apply Qlt_le_weak|]. intros Heq. rewrite Heq in Hlt.
    by destruct (Qlt_irrefl y.1).
  - split; [|done]. rewrite Heq. apply Qle_refl.
Qed.

Lemma slice_to_ascending (n : Z) (l : list (Q * string)) :
  StronglySorted dist_key_le l → StronglySorted dist_key_le (slice_to n l).
Proof.
  intros Hsorted. unfold slice_to.
  destruct (0 <=? n);
    [rewrite <- (take_drop (Z.to_nat n) l) in Hsorted
    |rewrite <- (take_drop (Z.to_nat (Z.of_nat (length l) + n)) l) in Hsorted];
    by apply StronglySorted_app_1_l in Hsorted.
Qed.

(** C1 (as the code has it).  With [double_check], a list returned by
    [findClosestFromPoint] on an index built by the constructor and
    [add] is the keys the search has accumulated, each paired with its
    exact distance, sorted as pairs and cut to the first [N] ([N] clamped
    to the number of indexed keys).  The order of the pairs is ascending
    by distance, and ascending by key among equal distances: where the
    keys were discovered plays no part in it. *)
Theorem closest_double_check_sorted
    {Cell : Type} `{Countable Cell} (encode : Q → Q → Z → outcome Cell)
    (neighbors : Cell → list Cell) (haversine : coords → coords → Q)
    (pep479 : bool) (g : GeoGrid Cell) (p : coords) (N : Z)
    (from_keys : option (gset Key)) (l : list (Q * Key)) :
  reachable encode g →
  from_keys ≠ Some ∅ →
  findClosestFromPoint encode neighbors haversine pep479 g p N true from_keys
    = Returned l →
  ∃ case_id found all,
    _computeCaseId encode g p = Returned case_id ∧
    found = (closest_loop g (Z.min N (Z.of_nat (size (_keys g)))) from_keys
               (yielded (_recursiveFrontier neighbors case_id 1 false)) ∅).1 ∧
    all ≡ₚ with_distance haversine g p <$> elements found ∧
    StronglySorted dist_key_le all ∧
    l = slice_to (Z.min N (Z.of_nat (size (_keys g)))) all ∧
    ∀ i j x y, (i < j)%nat → l !! i = Some x → l !! j = Some y →
      (x.1 <= y.1)%Q ∧ ((x.1 == y.1)%Q → String.leb x.2 y.2 = true).
Proof.
  intros Hreach Hfrom Hret.
  destruct (reachable_consistent encode g Hreach) as [_ Hg].
  apply (findClosestFromPoint_returned _ _ _ _ _ _ _ _ _ _ Hg) in Hret
    as [[? _]|(c & found & _ & Hcase & Hfound & ->)]; [done|].
  destruct (sorted_ascending (with_distance haversine g p <$> elements found))
    as [Hsorted Hperm].
  exists c, found, (sorted (with_distance haversine g p <$> elements found)).
  split; [done|]. split; [done|]. split; [done|]. split; [done|].
  split; [done|].
  intros i j x y. apply ascending_lookup. by apply slice_to_ascending.
Qed.

Lemma closest_double_check_sorted_witness :
  ∃ case_id found all,
    _computeCaseId World.encode World.airports World.roissy
      = Returned case_id ∧
    found = (closest_loop World.airports
               (Z.min 2 (Z.of_nat (size (_keys World.airports)))) None
               (yielded (_recursiveFrontier World.neighbors case_id 1 false))
               ∅).1 ∧
    all ≡ₚ with_distance Plane.distance World.airports World.roissy
             <$> elements found ∧
    StronglySorted dist_key_le all ∧
    World.closest_to_roissy =
      slice_to (Z.min 2 (Z.of_nat (size (_keys World.airports)))) all ∧
    ∀ i j x y, (i < j)%nat →
      World.closest_to_roissy !! i = Some x →
      World.closest_to_roissy !! j = Some y →
      (x.1 <= y.1)%Q ∧ ((x.1 == y.1)%Q → String.leb x.2 y.2 = true).
Proof.
  apply (closest_double_check_sorted World.encode World.neighbors
           Plane.distance false World.airports World.roissy 2 None
           World.closest_to_roissy).
  - apply World_reachable.
  - discriminate.
  - vm_compute. reflexivity.
Defined.

(** C1 as stated fails on ties.  "B" is added before "A", at the same
    point: the bucket of their cell, and so every enumeration of what the
    search discovers, has "B" first; the refined answer has "A" first. *)
Lemma closest_tie_broken_by_key :
  yielded (_findInAdjacentCases World.neighbors false World.twins (4, 3) 1)
    = ["B"; "A"]%string ∧
  ∃ d1 d2,
    findClosestFromPoint World.encode World.neighbors Plane.distance false
      World.twins World.roissy 2 true None
      = Returned [(d1, "A"%string); (d2, "B"%string)] ∧
    (d1 == d2)%Q.
Proof.
  split; [vm_compute; reflexivity|].
  do 2 eexists. split; [vm_compute; reflexivity|]. reflexivity.
Qed.

(** ** Further properties of the index *)

(** X1. An insertion whose point the encoder accepts records the cell
    and the point under the key (replacing an older entry of the key),
    appends the key to the end of the bucket of that cell, and changes
    nothing else: other keys, other buckets, the precision and the
    average radius stay as they were, and nothing is printed. *)
Theorem add_stores_point
    {Cell : Type} `{Countable Cell} (encode : Q → Q → Z → outcome Cell)
    (g : GeoGrid Cell) (key : Key) (p : coords) (verbose : bool)
    (case_id : Cell) :
  _computeCaseId encode g p = Returned case_id →
  ∃ g', add encode g key p verbose = Returned (g', []) ∧
        _keys g' !! key = Some (Entry case_id p) ∧
        (∀ k, k ≠ key → _keys g' !! k = _keys g !! k) ∧
        _grid g' !! case_id = Some (default [] (_grid g !! case_id) ++ [key]) ∧
        (∀ c, c ≠ case_id → _grid g' !! c = _grid g !! c) ∧
        _precision g' = _precision g ∧ _avg_radius g' = _avg_radius g.
Proof.
  intros Hcase.
  destruct (add_cases encode g key p verbose)
    as [(e & He & _)|(c & g' & Hc & Hput & Hp & Ha & Hkeys & Hgrid)].
  { rewrite Hcase in He. discriminate He. }
  rewrite Hcase in Hc. injection Hc as <-.
  exists g'. split; [done|]. split; [|split; [|split; [|split]]].
  - by rewrite Hkeys, lookup_insert_eq.
  - intros k Hk. by rewrite Hkeys, lookup_insert_ne.
  - by rewrite Hgrid, decide_True.
  - intros c Hc. by rewrite Hgrid, decide_False.
  - done.
Qed.

Lemma add_stores_point_witness :
  ∃ g', add World.encode World.airports "ORY" (Coords 10 100) true
          = Returned (g', []) ∧
        _keys g' !! "ORY"%string = Some (Entry (6, 2) (Coords 10 100)) ∧
        (∀ k, k ≠ "ORY"%string → _keys g' !! k = _keys World.airports !! k) ∧
        _grid g' !! (6, 2)
          = Some (default [] (_grid World.airports !! (6, 2)) ++ ["ORY"%string]) ∧
        (∀ c, c ≠ (6, 2) → _grid g' !! c = _grid World.airports !! c) ∧
        _precision g' = _precision World.airports ∧
        _avg_radius g' = _avg_radius World.airports.
Proof.
  apply (add_stores_point World.encode World.airports "ORY" (Coords 10 100)
           true (6, 2)).
  reflexivity.
Defined.

Lemma errors_of_outside precision :
  ¬ (1 ≤ precision ≤ 8) → errors_of precision = Raised KeyError.
Proof.
  intros Hout. unfold errors_of, precision_to_errors.
  cbn [list_find fst]. repeat (case_decide; [lia|]). reflexivity.
Qed.

(** X2. Built from an explicit precision (no radius), the constructor
    succeeds exactly for the precisions 1 to 8 of the table: the index
    starts with both dictionaries empty, the precision as given and the
    table's error for it as average radius.  Any other precision raises
    [KeyError]; no index is made. *)
Theorem init_with_precision
    {Cell : Type} `{Countable Cell} (precision : Z) (verbose : bool) :
  (1 ≤ precision ≤ 8 →
   ∃ x, x ∈ precision_to_errors ∧ x.1 = precision ∧
        __init__ (Cell := Cell) precision None verbose =
          Returned (MkGeoGrid precision (km_error x) ∅ ∅,
                    if verbose then [SettingPrecision precision (km_error x)]
                    else [])) ∧
  (¬ (1 ≤ precision ≤ 8) →
   __init__ (Cell := Cell) precision None verbose = Raised KeyError).
Proof.
  split.
  - intros Hin.
    assert (∃ x, x ∈ precision_to_errors ∧ x.1 = precision) as (x & Hx & <-).
    { assert (precision = 1 ∨ precision = 2 ∨ precision = 3 ∨ precision = 4 ∨
              precision = 5 ∨ precision = 6 ∨ precision = 7 ∨ precision = 8)
        as Hcases by lia.
      unfold precision_to_errors.
      destruct Hcases as [->|[->|[->|[->|[->|[->|[->| ->]]]]]]];
        (eexists (_, _); split; [|reflexivity];
         repeat first [apply list_elem_of_here|apply list_elem_of_further]). }
    exists x. split; [done|]. split; [done|].
    unfold __init__. cbn [mbind outcome_bind bind].
    by rewrite errors_of_entry.
  - intros Hout. unfold __init__. cbn [mbind outcome_bind bind].
    by rewrite errors_of_outside.
Qed.

Lemma _computeCaseId_precision
    {Cell : Type} `{Countable Cell} (encode : Q → Q → Z → outcome Cell)
    (g g' : GeoGrid Cell) (p : coords) :
  _precision g' = _precision g →
  _computeCaseId encode g' p = _computeCaseId encode g p.
Proof. intros Hp. unfold _computeCaseId. by rewrite Hp. Qed.

Lemma add_encoded_cells
    {Cell : Type} `{Countable Cell} (encode : Q → Q → Z → outcome Cell)
    (g g' : GeoGrid Cell) key p verbose out :
  (∀ k e, _keys g !! k = Some e →
     _computeCaseId encode g (lat_lng e) = Returned (case e)) →
  add encode g key p verbose = Returned (g', out) →
  ∀ k e, _keys g' !! k = Some e →
    _computeCaseId encode g' (lat_lng e) = Returned (case e).
Proof.
  intros Hg Hadd.
  destruct (add_cases encode g key p verbose)
    as [(e & _ & Hskip)|(c & g1 & Hc & Hput & Hp & _ & Hkeys & _)].
  - rewrite Hskip in Hadd. by injection Hadd as <- _.
  - rewrite Hput in Hadd. injection Hadd as <- _.
    intros k e. rewrite Hkeys, lookup_insert.
    rewrite (_computeCaseId_precision encode g g1) by done.
    case_decide; [by intros [= <-]|apply Hg].
Qed.

Lemma add_buckets_nonempty
    {Cell : Type} `{Countable Cell} (encode : Q → Q → Z → outcome Cell)
    (g g' : GeoGrid Cell) key p verbose out :
  (∀ c bucket, _grid g !! c = Some bucket → bucket ≠ []) →
  add encode g key p verbose = Returned (g', out) →
  ∀ c bucket, _grid g' !! c = Some bucket → bucket ≠ [].
Proof.
  intros Hg Hadd.
  destruct (add_cases encode g key p verbose)
    as [(e & _ & Hskip)|(c & g1 & _ & Hput & _ & _ & _ & Hgrid)].
  - rewrite Hskip in Hadd. by injection Hadd as <- _.
  - rewrite Hput in Hadd. injection Hadd as <- _.
    intros c' bucket. rewrite Hgrid. case_decide; [|apply Hg].
    intros [= <-] Hnil. by apply app_eq_nil in Hnil as [_ ?].
Qed.

(** X3. In every index built by the constructor and [add]: the cell
    recorded with a key is the encoding, at the index's precision, of the
    point recorded with it (so no stored point is [None] or malformed);
    no bucket is empty and every key of a bucket is a key of [_keys];
    the precision is one of the table and the average radius is the
    table's error for it. *)
Theorem reachable_index_invariants
    {Cell : Type} `{Countable Cell} (encode : Q → Q → Z → outcome Cell)
    (g : GeoGrid Cell) :
  reachable encode g →
  (∀ key e, _keys g !! key = Some e →
     _computeCaseId encode g (lat_lng e) = Returned (case e)) ∧
  (∀ case_id bucket, _grid g !! case_id = Some bucket →
     bucket ≠ [] ∧ ∀ key, key ∈ bucket → is_Some (_keys g !! key)) ∧
  (∃ x, x ∈ precision_to_errors ∧
        _precision g = x.1 ∧ _avg_radius g = km_error x).
Proof.
  intros Hreach. split; [|split].
  - induction Hreach as [precision radius verbose g out Hinit
                        |g key p verbose g' out _ IH Hadd].
    + apply __init___empty in Hinit as [Hk _].
      intros key e. by rewrite Hk, lookup_empty.
    + by eapply add_encoded_cells.
  - intros c bucket Hb. split.
    + revert c bucket Hb.
      induction Hreach as [precision radius verbose g out Hinit
                          |g key p verbose g' out _ IH Hadd].
      * apply __init___empty in Hinit as [_ Hg].
        intros c bucket. by rewrite Hg, lookup_empty.
      * by eapply add_buckets_nonempty.
    + destruct (reachable_consistent encode g Hreach) as [_ Hg].
      intros key Hkey. by eapply Hg.
  - by eapply reachable_table.
Qed.

Lemma reachable_index_invariants_witness :
  (∀ key e, _keys World.moved !! key = Some e →
     _computeCaseId World.encode World.moved (lat_lng e) = Returned (case e)) ∧
  (∀ case_id bucket, _grid World.moved !! case_id = Some bucket →
     bucket ≠ [] ∧ ∀ key, key ∈ bucket → is_Some (_keys World.moved !! key)) ∧
  (∃ x, x ∈ precision_to_errors ∧
        _precision World.moved = x.1 ∧ _avg_radius World.moved = km_error x).
Proof.
  apply (reachable_index_invariants World.encode World.moved).
  apply World_reachable.
Defined.

(** ** Which precision a radius selects *)

Lemma selection_key_indicator radius x k :
  selection_key radius x = Returned k → k.1 = num_ltb (km_error x) radius.
Proof.
  unfold selection_key.
  destruct (num_sub radius (km_error x)); cbn [mbind outcome_bind bind];
    [|done].
  by intros [= <-].
Qed.

Lemma finest_covering_spec radius precision :
  finest_covering radius precision = true →
  ∃ x, x ∈ precision_to_errors ∧ x.1 = precision ∧
       num_ltb (km_error x) radius = false ∧
       ∀ y, y ∈ precision_to_errors → num_ltb (km_error y) radius = false →
            num_ltb (km_error y) (km_error x) = false.
Proof.
  unfold finest_covering.
  intros (x & Hx & [[Hp Hcover]%andb_true_iff Hleast]%andb_true_iff)%existsb_exists.
  exists x. split; [by apply list_elem_of_In|].
  split; [by apply Z.eqb_eq|]. apply negb_true_iff in Hcover.
  split; [done|]. intros y Hy Hycover.
  rewrite forallb_forall in Hleast.
  specialize (Hleast y (proj1 (list_elem_of_In _ _) Hy)).
  rewrite Hycover in Hleast. by apply negb_true_iff in Hleast.
Qed.

(** Every whole radius from 0 to 2500 selects the finest covering
    entry: checked radius by radius. *)
Lemma whole_radius_finest_covering z :
  0 ≤ z ≤ 2500 →
  ∃ p, select_precision (Int z) = Returned p ∧
       finest_covering (Int z) p = true.
Proof.
  intros Hz.
  assert (forallb (λ z, match select_precision (Int z) with
                        | Returned p => finest_covering (Int z) p
                        | Raised _ => false
                        end) (seqZ 0 2501) = true) as Hall
    by (vm_compute; reflexivity).
  rewrite forallb_forall in Hall.
  specialize (Hall z). rewrite <- list_elem_of_In, elem_of_seqZ in Hall.
  specialize (Hall ltac:(lia)).
  destruct (select_precision (Int z)) as [p|]; [by exists p|done].
Qed.

(** X4. The precision a radius selects covers the radius whenever some
    entry of the table does: its error is not below the radius.  For a
    whole radius from 0 to 2500 it is the finest such precision, the one
    of least error among the covering entries. *)
Theorem select_precision_covering (radius : number) (p : Z) :
  select_precision radius = Returned p →
  ((∃ y, y ∈ precision_to_errors ∧ num_ltb (km_error y) radius = false) →
   ∃ x, x ∈ precision_to_errors ∧ x.1 = p ∧
        num_ltb (km_error x) radius = false) ∧
  (∀ z, radius = Int z → 0 ≤ z ≤ 2500 →
     ∃ x, x ∈ precision_to_errors ∧ x.1 = p ∧
          num_ltb (km_error x) radius = false ∧
          ∀ y, y ∈ precision_to_errors → num_ltb (km_error y) radius = false →
               num_ltb (km_error y) (km_error x) = false).
Proof.
  intros Hsel. split.
  - intros (y & Hy & Hcover).
    pose proof (select_precision_least radius) as Hleast.
    rewrite Hsel in Hleast. destruct Hleast as (x & kx & Hx & Hp & Hkx & Hleast).
    exists x. split; [done|]. split; [done|].
    destruct (Hleast y Hy) as (ky & Hky & [Hlt|[Heq _]]);
      apply selection_key_indicator in Hkx, Hky;
      rewrite Hkx, Hky, Hcover in *;
      by destruct (num_ltb (km_error x) radius).
  - intros z -> Hz.
    destruct (whole_radius_finest_covering z Hz) as (q & Hq & Hfinest).
    rewrite Hsel in Hq. injection Hq as <-.
    by apply finest_covering_spec.
Qed.

Lemma select_precision_covering_witness :
  ((∃ y, y ∈ precision_to_errors ∧ num_ltb (km_error y) 20 = false) →
   ∃ x, x ∈ precision_to_errors ∧ x.1 = 4 ∧
        num_ltb (km_error x) 20 = false) ∧
  (∀ z, Int 20 = Int z → 0 ≤ z ≤ 2500 →
     ∃ x, x ∈ precision_to_errors ∧ x.1 = 4 ∧
          num_ltb (km_error x) 20 = false ∧
          ∀ y, y ∈ precision_to_errors → num_ltb (km_error y) 20 = false →
               num_ltb (km_error y) (km_error x) = false).
Proof.
  apply (select_precision_covering (Int 20) 4).
  vm_compute. reflexivity.
Defined.

(** ** The frontiers as layers of a breadth-first search *)

Section Layers.
Context {Cell : Type} `{Countable Cell}.
Variable neighbors : Cell → list Cell.

Lemma elem_of__nextFrontier (F I : gset Cell) c' :
  c' ∈ _nextFrontier neighbors F I ↔
  (c' ∉ I) ∧ (∃ c, c ∈ F ∧ c' ∈ neighbors c).
Proof.
  unfold _nextFrontier. rewrite elem_of_list_to_set, list_elem_of_bind.
  split.
  - intros (c & [Hout Hc']%list_elem_of_filter & Hc%elem_of_elements).
    split; [done|]. by exists c.
  - intros (Hout & c & Hc & Hc'). exists c.
    split; [by apply list_elem_of_filter|by apply elem_of_elements].
Qed.

Lemma frontiers_yielded fuel i (F I : gset Cell) :
  yielded (frontiers neighbors fuel i F I) = [] ∨
  ∃ fuel', fuel = S fuel' ∧
    yielded (frontiers neighbors fuel i F I) =
      F :: yielded (frontiers neighbors fuel' (i + 1)
                      (_nextFrontier neighbors F I)
                      (I ∪ _nextFrontier neighbors F I)).
Proof.
  destruct fuel as [|fuel]; [by left|]. rewrite frontiers_unfold.
  destruct (MAX_RECURSIVE_FRONTIER <? i); [by left|right]. by exists fuel.
Qed.

(** Every frontier after the first avoids the interior it started from. *)
Lemma frontiers_later_avoid_interior fuel : ∀ i (F I : gset Cell) k r,
  yielded (frontiers neighbors fuel i F I) !! S k = Some r → r ## I.
Proof.
  induction fuel as [|fuel IH]; intros i F I k r; [done|].
  destruct (frontiers_yielded (S fuel) i F I) as [->|(f & [= <-] & ->)];
    [done|].
  cbn [lookup list_lookup]. intros Hr.
  destruct (frontiers_yielded fuel (i + 1) (_nextFrontier neighbors F I)
              (I ∪ _nextFrontier neighbors F I)) as [Hnil|(f & -> & Hcons)].
  { by rewrite Hnil in Hr. }
  destruct k as [|k].
  - rewrite Hcons in Hr. injection Hr as <-.
    intros c Hc HI. by apply elem_of__nextFrontier in Hc as [? _].
  - apply IH in Hr. intros c Hc HI. apply (Hr c Hc). by apply elem_of_union_l.
Qed.

Lemma frontiers_disjoint fuel : ∀ i (F I : gset Cell) j k rj rk,
  F ⊆ I → (j < k)%nat →
  yielded (frontiers neighbors fuel i F I) !! j = Some rj →
  yielded (frontiers neighbors fuel i F I) !! k = Some rk →
  rj ## rk.
Proof.
  induction fuel as [|fuel IH]; intros i F I j k rj rk HFI Hjk; [done|].
  destruct k as [|k]; [lia|]. intros Hj Hk.
  destruct j as [|j].
  - apply frontiers_later_avoid_interior in Hk.
    destruct (frontiers_yielded (S fuel) i F I) as [Hnil|(f & _ & Hcons)];
      [by rewrite Hnil in Hj|].
    rewrite Hcons in Hj. injection Hj as <-.
    intros c Hc Hc'. apply (Hk c Hc'). by apply HFI.
  - destruct (frontiers_yielded (S fuel) i F I) as [Hnil|(f & [= <-] & Hcons)];
      [by rewrite Hnil in Hj|].
    rewrite Hcons in Hj, Hk. cbn [lookup list_lookup] in Hj, Hk.
    eapply (IH _ _ _ j k); [|lia|done..]. apply union_subseteq_r.
Qed.

(** From one frontier to the next: the next one holds neighbours of the
    frontier only, and every neighbour of the frontier is in the next
    one, in the interior the expansion started from, or in a frontier
    yielded before. *)
Lemma frontiers_step fuel : ∀ i (F I : gset Cell) k r r',
  yielded (frontiers neighbors fuel i F I) !! k = Some r →
  yielded (frontiers neighbors fuel i F I) !! S k = Some r' →
  (∀ c', c' ∈ r' → ∃ c, c ∈ r ∧ c' ∈ neighbors c) ∧
  (∀ c c', c ∈ r → c' ∈ neighbors c →
     c' ∈ I ∨ ∃ j rj, (j ≤ S k)%nat ∧
       yielded (frontiers neighbors fuel i F I) !! j = Some rj ∧ c' ∈ rj).
Proof.
  induction fuel as [|fuel IH]; intros i F I k r r'; [done|].
  destruct (frontiers_yielded (S fuel) i F I) as [->|(f & [= <-] & ->)];
    [done|].
  set (next := _nextFrontier neighbors F I).
  destruct k as [|k]; cbn [lookup list_lookup].
  - intros [= <-] Hr'.
    destruct (frontiers_yielded fuel (i + 1) next (I ∪ next))
      as [Hnil|(f & -> & Hcons)]; [by rewrite Hnil in Hr'|].
    rewrite Hcons in Hr'. injection Hr' as <-. split.
    + by intros c' [_ ?]%elem_of__nextFrontier.
    + intros c c' Hc Hc'. destruct (decide (c' ∈ I)) as [?|Hout]; [by left|].
      right. exists 1%nat, next. split; [lia|]. split; [by rewrite Hcons|].
      apply elem_of__nextFrontier. split; [done|]. by exists c.
  - intros Hr Hr'. destruct (IH _ _ _ _ _ _ Hr Hr') as [Hfrom Hcover].
    split; [done|]. intros c c' Hc Hc'.
    destruct (Hcover c c' Hc Hc') as [[?|Hnext]%elem_of_union
                                     |(j & rj & Hj & Hrj & ?)].
    + by left.
    + right. exists 1%nat, next. split; [lia|]. split; [|done].
      cbn [lookup list_lookup].
      destruct (frontiers_yielded fuel (i + 1) next (I ∪ next))
        as [Hnil|(f & _ & ->)]; [by rewrite Hnil in Hr|done].
    + right. exists (S j), rj. split; [lia|]. by split.
Qed.

End Layers.

(** X5. The frontiers [_recursiveFrontier] yields from a cell are the
    layers of a breadth-first search over [neighbors]: the first is the
    starting cell alone; no cell is in two frontiers; every cell of a
    frontier is a neighbour of a cell of the frontier before; and every
    neighbour of a cell of a frontier is in the next frontier (when one
    is yielded) or in an earlier one. *)
Theorem frontiers_are_search_layers
    {Cell : Type} `{Countable Cell} (neighbors : Cell → list Cell)
    (case_id : Cell) (N : Z) (stop : bool) :
  let rings := yielded (_recursiveFrontier neighbors case_id N stop) in
  (∀ r, rings !! 0%nat = Some r → r = {[case_id]}) ∧
  (∀ j k rj rk, (j < k)%nat → rings !! j = Some rj → rings !! k = Some rk →
     rj ## rk) ∧
  (∀ k r r', rings !! k = Some r → rings !! S k = Some r' →
     (∀ c', c' ∈ r' → ∃ c, c ∈ r ∧ c' ∈ neighbors c) ∧
     (∀ c c', c ∈ r → c' ∈ neighbors c →
        ∃ j rj, (j ≤ S k)%nat ∧ rings !! j = Some rj ∧ c' ∈ rj)).
Proof.
  intros rings. unfold rings, _recursiveFrontier.
  set (fuel := if stop then _ else _). clearbody fuel.
  split; [|split].
  - intros r Hr.
    destruct (frontiers_yielded neighbors fuel 0 {[case_id]} {[case_id]})
      as [Hnil|(f & _ & Hcons)]; [by rewrite Hnil in Hr|].
    rewrite Hcons in Hr. by injection Hr as <-.
  - intros j k rj rk. by apply frontiers_disjoint.
  - intros k r r' Hr Hr'.
    destruct (frontiers_step neighbors fuel 0 _ _ k r r' Hr Hr')
      as [Hfrom Hcover].
    split; [done|]. intros c c' Hc Hc'.
    destruct (Hcover c c' Hc Hc') as [->%elem_of_singleton|?]; [|done].
    exists 0%nat, {[case_id]}. split; [lia|]. split; [|by apply elem_of_singleton].
    destruct (frontiers_yielded neighbors fuel 0 {[case_id]} {[case_id]})
      as [Hnil|(f & _ & ->)]; [by rewrite Hnil in Hr|done].
Qed.

(** ** Frontiers on a regular grid *)

Lemma elem_of_ball o n q : q ∈ ball o n ↔ cheb q o ≤ n.
Proof.
  unfold ball, cheb. destruct q as [x y]. cbn [fst snd].
  rewrite elem_of_list_to_set, list_elem_of_bind. split.
  - intros (x' & (y' & Heq%list_elem_of_singleton & Hy%elem_of_seqZ)
                   %list_elem_of_bind & Hx%elem_of_seqZ).
    injection Heq as -> ->. lia.
  - intros Hq. exists x. split; [|apply elem_of_seqZ; lia].
    apply list_elem_of_bind. exists y.
    split; [by apply list_elem_of_singleton|apply elem_of_seqZ; lia].
Qed.

Lemma length_pairs (xs ys : list Z) :
  length (x ← xs; y ← ys; [(x, y)]) = (length xs * length ys)%nat.
Proof.
  induction xs as [|x xs IH]; [done|].
  rewrite bind_cons, length_app, IH. cbn [length].
  assert (length (y ← ys; [(x, y)]) = length ys) as ->; [|lia].
  clear. induction ys as [|y ys IH]; [done|].
  rewrite bind_cons. cbn. by rewrite IH.
Qed.

Lemma size_ball o n :
  size (ball o n) = (Z.to_nat (2 * n + 1) * Z.to_nat (2 * n + 1))%nat.
Proof.
  unfold ball. rewrite size_list_to_set.
  - by rewrite length_pairs, !length_seqZ.
  - apply NoDup_bind; [| |apply NoDup_seqZ].
    + intros x1 x2 q _ _
        (y1 & ->%list_elem_of_singleton & _)%list_elem_of_bind
        (y2 & Heq%list_elem_of_singleton & _)%list_elem_of_bind.
      by injection Heq.
    + intros x _. apply NoDup_bind; [| |apply NoDup_seqZ].
      * intros y1 y2 q _ _ ->%list_elem_of_singleton
          Heq%list_elem_of_singleton. by injection Heq.
      * intros y _. apply NoDup_singleton.
Qed.

Lemma elem_of_sphere o i q : q ∈ sphere o i ↔ cheb q o = i.
Proof.
  unfold sphere. rewrite elem_of_difference, !elem_of_ball. lia.
Qed.

Lemma size_sphere o i :
  0 ≤ i → Z.of_nat (size (sphere o i)) = if decide (i = 0) then 1 else 8 * i.
Proof.
  intros Hi. unfold sphere. rewrite size_difference.
  - rewrite !size_ball. case_decide as Hz; [by subst|].
    assert (Z.to_nat (2 * (i - 1) + 1) ≤ Z.to_nat (2 * i + 1))%nat as Hle by lia.
    rewrite Nat2Z.inj_sub by (by apply Nat.mul_le_mono).
    rewrite !Nat2Z.inj_mul, !Z2Nat.id by lia. lia.
  - intros q. rewrite !elem_of_ball. lia.
Qed.

Lemma clamp_cases (u v i : Z) :
  0 ≤ i → Z.abs (v - u) ≤ i + 1 →
  (Z.max (u - i) (Z.min (u + i) v) = v ∧ Z.abs (v - u) ≤ i) ∨
  (Z.abs (Z.max (u - i) (Z.min (u + i) v) - u) = i ∧
   Z.abs (v - Z.max (u - i) (Z.min (u + i) v)) = 1 ∧ Z.abs (v - u) = i + 1).
Proof. lia. Qed.

Lemma toward_spec o i q :
  0 ≤ i → cheb q o = i + 1 →
  cheb (toward o i q) o = i ∧ cheb q (toward o i q) = 1.
Proof.
  unfold cheb, toward. destruct o as [a b], q as [x y]. cbn [fst snd].
  intros Hi Hq.
  pose proof (clamp_cases a x i Hi) as Hx.
  pose proof (clamp_cases b y i Hi) as Hy.
  remember (Z.max (a - i) (Z.min (a + i) x)) as x0 eqn:Ex.
  remember (Z.max (b - i) (Z.min (b + i) y)) as y0 eqn:Ey.
  clear Ex Ey. lia.
Qed.

Lemma size_set_map_inj `{Countable A, Countable B} (f : A → B) (X : gset A) :
  (∀ x y, f x = f y → x = y) →
  size (set_map f X : gset B) = size X.
Proof.
  intros Hinj. unfold set_map. rewrite size_list_to_set; [by rewrite length_fmap|].
  apply NoDup_fmap_2_strong; [by auto|apply NoDup_elements].
Qed.

Section Regular.
Context {Cell : Type} `{Countable Cell}.
Variable neighbors : Cell → list Cell.
Variable coord : Cell → Z * Z.
Variable origin : Cell.
Variable radius : Z.
Hypothesis regular : regular_around neighbors coord origin radius.

(** The frontier holds exactly the cells at distance [i], the interior
    those within distance [i], and every coordinate at distance [i] is
    the one of a cell. *)
Let layer (i : Z) (F I : gset Cell) : Prop :=
  (∀ c, c ∈ F ↔ cheb (coord c) (coord origin) = i) ∧
  (∀ c, c ∈ I ↔ cheb (coord c) (coord origin) ≤ i) ∧
  (∀ q, cheb q (coord origin) = i → ∃ c, coord c = q).

Lemma cheb_triangle (a b c : Z * Z) : cheb a c ≤ cheb a b + cheb b c.
Proof. unfold cheb. destruct a, b, c. cbn [fst snd]. lia. Qed.

Lemma cheb_nonneg (a b : Z * Z) : 0 ≤ cheb a b.
Proof. unfold cheb. lia. Qed.

Lemma cheb_zero (a b : Z * Z) : cheb a b = 0 ↔ a = b.
Proof.
  unfold cheb. destruct a as [x y], b as [u v]. cbn [fst snd]. split.
  - intros Hz. f_equal; lia.
  - intros [= -> ->]. lia.
Qed.

Lemma layer_origin : layer 0 {[origin]} {[origin]}.
Proof.
  destruct regular as [Hinj _]. split; [|split].
  - intros c. rewrite elem_of_singleton, cheb_zero. split; [by intros ->|apply Hinj].
  - intros c. rewrite elem_of_singleton. pose proof (cheb_nonneg (coord c) (coord origin)).
    split; [intros ->|intros Hle; apply Hinj, cheb_zero; lia].
    assert (cheb (coord origin) (coord origin) = 0) by (by apply cheb_zero). lia.
  - intros q Hq%cheb_zero. by exists origin.
Qed.

Lemma layer_next i (F I : gset Cell) :
  0 ≤ i < radius → layer i F I →
  layer (i + 1) (_nextFrontier neighbors F I)
        (I ∪ _nextFrontier neighbors F I).
Proof.
  intros Hi (HF & HI & Hsurj). destruct regular as [Hinj Hreg].
  assert (∀ c, c ∈ _nextFrontier neighbors F I ↔
               cheb (coord c) (coord origin) = i + 1) as Hnext.
  { intros c'. rewrite elem_of__nextFrontier, HI. split.
    - intros (Hout & c & Hc%HF & Hc').
      assert (cheb (coord c') (coord c) = 1) as Hadj.
      { apply Hreg; [lia|]. by exists c'. }
      pose proof (cheb_triangle (coord c') (coord c) (coord origin)).
      apply Z.nle_gt in Hout. lia.
    - intros Hc'. split; [lia|].
      destruct (toward_spec (coord origin) i (coord c')) as [H0 H1]; [lia|done|].
      destruct (Hsurj _ H0) as [c Hc]. exists c.
      split; [apply HF; by rewrite Hc|].
      rewrite <- Hc in H1. apply Hreg in H1 as (c'' & Hin & Heq); [|rewrite Hc; lia].
      by rewrite <- (Hinj _ _ Heq). }
  split; [done|]. split.
  - intros c. rewrite elem_of_union, HI, Hnext. lia.
  - intros q Hq.
    destruct (toward_spec (coord origin) i q) as [H0 H1]; [lia|done|].
    destruct (Hsurj _ H0) as [c Hc]. rewrite <- Hc in H1.
    apply Hreg in H1 as (c' & _ & Heq); [|rewrite Hc; lia]. by exists c'.
Qed.

Lemma frontiers_layers fuel : ∀ i (F I : gset Cell) k r,
  0 ≤ i → layer i F I →
  yielded (frontiers neighbors fuel i F I) !! k = Some r →
  i + Z.of_nat k ≤ radius →
  (∀ c, c ∈ r ↔ cheb (coord c) (coord origin) = i + Z.of_nat k) ∧
  (∀ q, cheb q (coord origin) = i + Z.of_nat k → ∃ c, coord c = q).
Proof.
  induction fuel as [|fuel IH]; intros i F I k r Hi Hlayer; [done|].
  destruct (frontiers_yielded neighbors (S fuel) i F I)
    as [->|(f & [= <-] & ->)]; [done|].
  destruct k as [|k]; cbn [lookup list_lookup].
  - intros [= <-] _. replace (i + Z.of_nat 0) with i by lia.
    destruct Hlayer as (HF & _ & Hsurj). by split.
  - intros Hr Hk.
    replace (i + Z.of_nat (S k)) with (i + 1 + Z.of_nat k) by lia.
    eapply IH; [| |exact Hr|]; [lia|apply layer_next; [lia|done]|lia].
Qed.

Lemma layer_size (r : gset Cell) i :
  0 ≤ i →
  (∀ c, c ∈ r ↔ cheb (coord c) (coord origin) = i) →
  (∀ q, cheb q (coord origin) = i → ∃ c, coord c = q) →
  Z.of_nat (size r) = if decide (i = 0) then 1 else 8 * i.
Proof.
  intros Hi Hr Hsurj. destruct regular as [Hinj _].
  rewrite <- (size_sphere (coord origin) i Hi).
  rewrite <- (size_set_map_inj coord r Hinj). do 2 f_equal.
  apply set_eq. intros q. rewrite elem_of_map, elem_of_sphere. split.
  - intros (c & -> & Hc). by apply Hr.
  - intros Hq. destruct (Hsurj q Hq) as [c <-]. exists c. split; [done|].
    by apply Hr.
Qed.

End Regular.

Lemma ring_sizes_sum (sizes : list nat) (n : nat) :
  (∀ k s, sizes !! k = Some s →
     Z.of_nat s = if decide (Z.of_nat k = 0) then 1 else 8 * Z.of_nat k) →
  (1 ≤ n ≤ length sizes)%nat →
  Z.of_nat (sum_list (take n sizes)) = (2 * Z.of_nat n - 1) * (2 * Z.of_nat n - 1).
Proof.
  intros Hsizes. induction n as [|n IH]; [lia|]. intros Hn.
  destruct (lookup_lt_is_Some_2 sizes n) as [s Hs]; [lia|].
  rewrite (take_S_r _ _ _ Hs), sum_list_with_app. cbn [sum_list_with id].
  pose proof (Hsizes n s Hs) as Hsz.
  destruct n as [|n].
  - rewrite take_0. cbn [sum_list_with]. rewrite decide_True in Hsz by lia. lia.
  - rewrite decide_False in Hsz by lia.
    rewrite Nat2Z.inj_add, IH by lia. lia.
Qed.

Lemma Plane_regular (origin : Plane.cell) (radius : Z) :
  regular_around Plane.neighbors id origin radius.
Proof.
  split; [done|]. intros [x y] _ [u v]. unfold cheb, Plane.neighbors, id.
  cbn [fst snd]. split.
  - intros (c' & Hin & ->).
    repeat (apply elem_of_cons in Hin as [[= -> ->]|Hin]; [lia|]).
    by apply elem_of_nil in Hin.
  - intros Hadj. exists (u, v). split; [|done].
    assert (u = x - 1 ∨ u = x ∨ u = x + 1) as Hu by lia.
    assert (v = y - 1 ∨ v = y ∨ v = y + 1) as Hv by lia.
    destruct Hu as [->|[->| ->]], Hv as [->|[->| ->]]; try lia;
      repeat first [apply list_elem_of_here|apply list_elem_of_further].
Qed.

(** On a regular adjacency, the frontiers yielded up to [radius] are
    the spheres of the maximum norm, with their sizes. *)
Lemma regular_rings_cells
    {Cell : Type} `{Countable Cell} (neighbors : Cell → list Cell)
    (coord : Cell → Z * Z) (origin : Cell) (radius N : Z) (stop : bool) :
  regular_around neighbors coord origin radius →
  ∀ i r, yielded (_recursiveFrontier neighbors origin N stop) !! i = Some r →
    Z.of_nat i ≤ radius →
    (∀ c, c ∈ r ↔ cheb (coord c) (coord origin) = Z.of_nat i) ∧
    Z.of_nat (size r) = if decide (Z.of_nat i = 0) then 1 else 8 * Z.of_nat i.
Proof.
  intros Hreg i r Hr Hi. unfold _recursiveFrontier in Hr.
  set (fuel := if stop then _ else _) in Hr. clearbody fuel.
  destruct (frontiers_layers neighbors coord origin radius Hreg fuel 0
              {[origin]} {[origin]} i r)
    as [Hcells Hsurj];
    [lia|exact (layer_origin neighbors coord origin radius Hreg)
    |exact Hr|lia|].
  split; [done|].
  by apply (layer_size neighbors coord origin radius Hreg); [lia|..].
Qed.

Lemma regular_rings_sum
    {Cell : Type} `{Countable Cell} (neighbors : Cell → list Cell)
    (coord : Cell → Z * Z) (origin : Cell) (radius N : Z) (stop : bool) :
  regular_around neighbors coord origin radius →
  let rings := yielded (_recursiveFrontier neighbors origin N stop) in
  ∀ n, (1 ≤ n ≤ length rings)%nat → Z.of_nat n ≤ radius + 1 →
    Z.of_nat (sum_list (size <$> take n rings)) =
      (2 * Z.of_nat n - 1) * (2 * Z.of_nat n - 1).
Proof.
  intros Hreg rings n Hn HnR.
  rewrite <- (take_ge (size <$> take n rings) n)
    by (rewrite length_fmap, length_take; lia).
  apply ring_sizes_sum; [|rewrite length_fmap, length_take; lia].
  intros k s. rewrite list_lookup_fmap.
  destruct (take n rings !! k) as [r|] eqn:Hr; [|done]. intros [= <-].
  apply lookup_take_Some in Hr as [Hr Hk].
  apply (regular_rings_cells neighbors coord origin radius N stop Hreg k r);
    [done|lia].
Qed.

(** C5. In a frontier expansion from one cell whose adjacency is that
    of the square grid up to [radius] rings around that cell: the first
    frontier is the starting cell alone; frontier number [i], for
    [1 ≤ i ≤ radius], has exactly [8 i] cells; and the first [n]
    frontiers hold [(2 n - 1)²] cells together.  A bounded expansion
    asked for [N] frontiers, [N] within the guard of the generator,
    yields [N] of them, [(2 N - 1)²] cells in all: 9, 25, 49 and 81 for
    [N] from 2 to 5. *)
Theorem regular_expansion_ring_counts
    {Cell : Type} `{Countable Cell} (neighbors : Cell → list Cell)
    (coord : Cell → Z * Z) (origin : Cell) (radius N : Z) (stop : bool) :
  regular_around neighbors coord origin radius →
  let rings := yielded (_recursiveFrontier neighbors origin N stop) in
  (∀ r, rings !! 0%nat = Some r → r = {[origin]}) ∧
  (∀ i r, rings !! i = Some r → 1 ≤ Z.of_nat i ≤ radius →
     Z.of_nat (size r) = 8 * Z.of_nat i) ∧
  (∀ n, (1 ≤ n ≤ length rings)%nat → Z.of_nat n ≤ radius + 1 →
     Z.of_nat (sum_list (size <$> take n rings)) = (2 * Z.of_nat n - 1) ^ 2) ∧
  (stop = true → 1 ≤ N ≤ radius + 1 → N ≤ MAX_RECURSIVE_FRONTIER + 1 →
     length rings = Z.to_nat N ∧
     Z.of_nat (sum_list (size <$> rings)) = (2 * N - 1) ^ 2).
Proof.
  intros Hreg rings.
  pose proof (regular_rings_sum neighbors coord origin radius N stop Hreg)
    as Hsum. fold rings in Hsum.
  split; [|split; [|split]].
  - intros r Hr. unfold rings, _recursiveFrontier in Hr.
    set (fuel := if stop then _ else _) in Hr. clearbody fuel.
    destruct (frontiers_yielded neighbors fuel 0 {[origin]} {[origin]})
      as [Hnil|(fuel' & _ & Hcons)].
    + by rewrite Hnil in Hr.
    + rewrite Hcons in Hr. by injection Hr as <-.
  - intros i r Hr Hi.
    destruct (regular_rings_cells neighbors coord origin radius N stop Hreg
                i r Hr) as [_ Hsize]; [lia|].
    rewrite Hsize. case_decide; [lia|done].
  - intros n Hn HnR. rewrite Hsum by done. lia.
  - intros -> HN Hmax.
    assert (length rings = Z.to_nat N) as Hlen.
    { unfold rings. rewrite _recursiveFrontier_length. lia. }
    split; [done|].
    rewrite <- (take_ge rings (Z.to_nat N)) by lia.
    rewrite Hsum by lia. lia.
Qed.

Lemma regular_expansion_ring_counts_witness :
  let rings := yielded (_recursiveFrontier Plane.neighbors (0, 0) 5 true) in
  (∀ r, rings !! 0%nat = Some r → r = {[(0, 0)]}) ∧
  (∀ i r, rings !! i = Some r → 1 ≤ Z.of_nat i ≤ 4 →
     Z.of_nat (size r) = 8 * Z.of_nat i) ∧
  (∀ n, (1 ≤ n ≤ length rings)%nat → Z.of_nat n ≤ 4 + 1 →
     Z.of_nat (sum_list (size <$> take n rings)) = (2 * Z.of_nat n - 1) ^ 2) ∧
  (true = true → 1 ≤ 5 ≤ 4 + 1 → 5 ≤ MAX_RECURSIVE_FRONTIER + 1 →
     length rings = Z.to_nat 5 ∧
     Z.of_nat (sum_list (size <$> rings)) = (2 * 5 - 1) ^ 2).
Proof.
  apply (regular_expansion_ring_counts Plane.neighbors id (0, 0) 4 5 true).
  apply Plane_regular.
Defined.

(** X6. Where the adjacency is that of the square grid up to [radius]
    rings around the starting cell, frontier number [i] (counted from 0,
    [i ≤ radius]) is the set of cells at distance [i] in the maximum
    norm: one cell for [i = 0], [8 i] cells after that; the first [n]
    frontiers hold [(2 n - 1)²] cells together, and so does a whole
    bounded expansion of [N] frontiers. *)
Theorem regular_grid_ring_sizes
    {Cell : Type} `{Countable Cell} (neighbors : Cell → list Cell)
    (coord : Cell → Z * Z) (origin : Cell) (radius N : Z) (stop : bool) :
  regular_around neighbors coord origin radius →
  let rings := yielded (_recursiveFrontier neighbors origin N stop) in
  (∀ i r, rings !! i = Some r → Z.of_nat i ≤ radius →
     (∀ c, c ∈ r ↔ cheb (coord c) (coord origin) = Z.of_nat i) ∧
     Z.of_nat (size r) = if decide (Z.of_nat i = 0) then 1 else 8 * Z.of_nat i) ∧
  (∀ n, (1 ≤ n ≤ length rings)%nat → Z.of_nat n ≤ radius + 1 →
     Z.of_nat (sum_list (size <$> take n rings)) =
       (2 * Z.of_nat n - 1) * (2 * Z.of_nat n - 1)) ∧
  (stop = true → 1 ≤ N ≤ radius + 1 → N ≤ MAX_RECURSIVE_FRONTIER + 1 →
     Z.of_nat (sum_list (size <$> rings)) = (2 * N - 1) * (2 * N - 1)).
Proof.
  intros Hreg rings.
  pose proof (regular_rings_cells neighbors coord origin radius N stop Hreg)
    as Hrings.
  pose proof (regular_rings_sum neighbors coord origin radius N stop Hreg)
    as Hsum. fold rings in Hrings, Hsum.
  split; [done|]. split; [done|].
  intros -> HN Hmax.
  assert (length rings = Z.to_nat N) as Hlen.
  { unfold rings. rewrite _recursiveFrontier_length. lia. }
  rewrite <- (take_ge rings (Z.to_nat N)) by lia.
  rewrite Hsum by lia. lia.
Qed.

Lemma regular_grid_ring_sizes_witness :
  let rings := yielded (_recursiveFrontier Plane.neighbors (0, 0) 5 true) in
  (∀ i r, rings !! i = Some r → Z.of_nat i ≤ 4 →
     (∀ c, c ∈ r ↔ cheb (id c) (id (0, 0)) = Z.of_nat i) ∧
     Z.of_nat (size r) = if decide (Z.of_nat i = 0) then 1 else 8 * Z.of_nat i) ∧
  (∀ n, (1 ≤ n ≤ length rings)%nat → Z.of_nat n ≤ 4 + 1 →
     Z.of_nat (sum_list (size <$> take n rings)) =
       (2 * Z.of_nat n - 1) * (2 * Z.of_nat n - 1)) ∧
  (true = true → 1 ≤ 5 ≤ 4 + 1 → 5 ≤ MAX_RECURSIVE_FRONTIER + 1 →
     Z.of_nat (sum_list (size <$> rings)) = (2 * 5 - 1) * (2 * 5 - 1)).
Proof.
  apply (regular_grid_ring_sizes Plane.neighbors id (0, 0) 4 5 true).
  apply Plane_regular.
Defined.

(** ** Distance check and radius search *)

Section Distance.
Context {Cell : Type} `{Countable Cell}.
Variable haversine : coords → coords → Q.

Lemma check_distance_from_filter (g : GeoGrid Cell) candidate after ref radius :
  (∀ can, can ∈ candidate → is_Some (_keys g !! can)) →
  check_distance_from haversine g candidate after ref radius =
    Gen (filter (λ x : Q * Key, float_le x.1 radius = true)
           (with_distance haversine g ref <$> candidate)) after.
Proof.
  induction candidate as [|can candidate IH]; intros Hall; [done|].
  cbn [check_distance_from fmap list_fmap].
  destruct (Hall can) as [e He]; [by left|].
  rewrite IH by (intros k Hk; apply Hall; by right).
  rewrite filter_cons, He. cbn [yielded stop].
  assert (with_distance haversine g ref can = (haversine ref (lat_lng e), can))
    as -> by (unfold with_distance; by rewrite He).
  cbn [fst].
  destruct (float_le (haversine ref (lat_lng e)) radius) eqn:Hle.
  - rewrite decide_True by done. reflexivity.
  - rewrite decide_False by done. reflexivity.
Qed.

Lemma check_distance_from_missing (g : GeoGrid Cell) candidate after ref radius :
  (∃ can, can ∈ candidate ∧ _keys g !! can = None) →
  stop (check_distance_from haversine g candidate after ref radius)
    = Failed KeyError.
Proof.
  induction candidate as [|can candidate IH]; intros (k & Hk & Hnone).
  - by apply elem_of_nil in Hk.
  - cbn [check_distance_from].
    destruct (_keys g !! can) as [e|] eqn:He; [|done].
    assert (stop (check_distance_from haversine g candidate after ref radius)
            = Failed KeyError) as Hrest.
    { apply IH. exists k. split; [|done].
      apply elem_of_cons in Hk as [->|Hk]; [congruence|done]. }
    by destruct (float_le _ _).
Qed.

End Distance.

(** X7. When every candidate is a key of [_keys], [_check_distance]
    yields the candidates whose distance to the reference point is at
    most the radius, each paired with that distance, in the order of the
    candidates, and ends as the candidate generator ends.  A candidate
    that is no key of [_keys] ends it with [KeyError]. *)
Theorem check_distance_keeps_within_radius
    {Cell : Type} `{Countable Cell} (haversine : coords → coords → Q)
    (g : GeoGrid Cell) (candidate : generator Key) (ref : coords)
    (radius : float) :
  ((∀ can, can ∈ yielded candidate → is_Some (_keys g !! can)) →
   _check_distance haversine g candidate ref radius =
     Gen (filter (λ x : Q * Key, float_le x.1 radius = true)
            (with_distance haversine g ref <$> yielded candidate))
         (stop candidate)) ∧
  ((∃ can, can ∈ yielded candidate ∧ _keys g !! can = None) →
   stop (_check_distance haversine g candidate ref radius) = Failed KeyError).
Proof.
  split; intros Hkeys; unfold _check_distance.
  - by apply check_distance_from_filter.
  - by apply check_distance_from_missing.
Qed.

Section Near.
Context {Cell : Type} `{Countable Cell}.
Variable neighbors : Cell → list Cell.
Variable haversine : coords → coords → Q.
Variable pep479 : bool.

Lemma _recursiveFrontier_first (case_id : Cell) (N : Z) :
  1 ≤ N →
  ∃ rest, yielded (_recursiveFrontier neighbors case_id N true)
          = {[case_id]} :: rest.
Proof.
  intros HN. unfold _recursiveFrontier, range_len.
  destruct (Z.to_nat N) as [|fuel] eqn:Hfuel; [lia|].
  rewrite frontiers_unfold.
  replace (MAX_RECURSIVE_FRONTIER <? 0) with false by reflexivity.
  cbn [yielded]. by eexists.
Qed.

Lemma elem_of__findInAdjacentCases (g : GeoGrid Cell) case_id N key :
  key ∈ yielded (_findInAdjacentCases neighbors pep479 g case_id N) →
  ∃ c bucket, _grid g !! c = Some bucket ∧ key ∈ bucket.
Proof.
  unfold _findInAdjacentCases. cbn [yielded].
  intros (frontier & Hkey & _)%list_elem_of_bind.
  apply elem_of__allKeysInCases in Hkey as (c & bucket & _ & ? & ?).
  by exists c, bucket.
Qed.

Lemma _findInAdjacentCases_own_cell (g : GeoGrid Cell) case_id N bucket key :
  1 ≤ N → _grid g !! case_id = Some bucket → key ∈ bucket →
  key ∈ yielded (_findInAdjacentCases neighbors pep479 g case_id N).
Proof.
  intros HN Hb Hkey. unfold _findInAdjacentCases. cbn [yielded].
  destruct (_recursiveFrontier_first case_id N HN) as [rest ->].
  rewrite bind_cons. apply elem_of_app. left.
  apply elem_of__allKeysInCases. exists case_id, bucket.
  split; [|done]. apply elem_of_elements. by apply elem_of_singleton.
Qed.

(** What a radius search hands back for a candidate generator. *)
Lemma near_results (g : GeoGrid Cell) (candidate : generator Key)
    (ref : coords) (radius : Q) (double_check : bool) d k :
  (∀ can, can ∈ yielded candidate → is_Some (_keys g !! can)) →
  (d, k) ∈ yielded (if double_check
                    then _check_distance haversine g candidate ref (Fin radius)
                    else zero_dist candidate) →
  ∃ e, _keys g !! k = Some e ∧
       if double_check then d = haversine ref (lat_lng e) ∧ (d <= radius)%Q
       else d = 0%Q.
Proof.
  intros Hall. destruct double_check.
  - unfold _check_distance. rewrite check_distance_from_filter by done.
    cbn [yielded]. intros [Hle (can & Heq & Hcan)%list_elem_of_fmap]%list_elem_of_filter.
    destruct (Hall can Hcan) as [e He]. unfold with_distance in Heq.
    rewrite He in Heq. injection Heq as -> ->. exists e. split; [done|].
    split; [done|]. by apply Qle_bool_iff.
  - unfold zero_dist. cbn [yielded].
    intros (can & [= -> ->] & Hcan)%list_elem_of_fmap.
    destruct (Hall can Hcan) as [e He]. by exists e.
Qed.

End Near.

(** X8. On an index built by the constructor and [add], a search
    around an indexed key with a radius that is not negative either
    raises [OverflowError], when the radius or its quotient by the
    average radius is too large for a float, or yields the key itself:
    with distance 0 without [double_check], and with its exact distance
    to its own point with [double_check], provided that distance is
    within the radius. *)
Theorem findNearKey_yields_key
    {Cell : Type} `{Countable Cell} (encode : Q → Q → Z → outcome Cell)
    (neighbors : Cell → list Cell) (haversine : coords → coords → Q)
    (pep479 : bool) (g : GeoGrid Cell) (key : Key) (e : entry Cell)
    (radius : Q) :
  reachable encode g →
  _keys g !! key = Some e →
  (0 <= radius)%Q →
  match near_rings g radius with
  | Raised err =>
      err = OverflowError ∧
      ∀ double_check,
        findNearKey neighbors haversine pep479 g key radius double_check
          = Raised OverflowError
  | Returned _ =>
      (∃ gen, findNearKey neighbors haversine pep479 g key radius false
                = Returned gen ∧
              (0%Q, key) ∈ yielded gen) ∧
      ((haversine (lat_lng e) (lat_lng e) <= radius)%Q →
       ∃ gen, findNearKey neighbors haversine pep479 g key radius true
                = Returned gen ∧
              (haversine (lat_lng e) (lat_lng e), key) ∈ yielded gen)
  end.
Proof.
  intros Hreach Hkey Hradius.
  destruct (reachable_consistent encode g Hreach) as [Hkeys Hbuckets].
  destruct (Hkeys key e Hkey) as (bucket & Hb & Hin).
  pose proof (near_rings_cases encode g radius Hreach Hradius) as Hcases.
  unfold findNearKey, _findNearCase. rewrite Hkey.
  destruct (near_rings g radius) as [N|err]; cbn [mbind outcome_bind bind];
    [|by subst err].
  assert (key ∈ yielded (_findInAdjacentCases neighbors pep479 g (case e) N))
    as Hcand.
  { apply (_findInAdjacentCases_own_cell neighbors pep479 g (case e) _ bucket);
      [lia|done..]. }
  split.
  - eexists. split; [reflexivity|]. unfold zero_dist. cbn [yielded].
    apply list_elem_of_fmap. by exists key.
  - intros Hself. eexists. split; [reflexivity|].
    unfold _check_distance. rewrite check_distance_from_filter.
    + cbn [yielded]. apply list_elem_of_filter. split.
      * cbn [fst float_le]. by apply Qle_bool_iff.
      * apply list_elem_of_fmap. exists key. split; [|done].
        unfold with_distance. by rewrite Hkey.
    + intros can (c & b & Hc & Hcan)%elem_of__findInAdjacentCases.
      by eapply Hbuckets.
Qed.

Lemma World_airports_rings_20 : near_rings World.airports 20 = Returned 2.
Proof. vm_compute. reflexivity. Qed.

Lemma findNearKey_yields_key_witness :
  (∃ gen, findNearKey World.neighbors Plane.distance true World.airports
            "ORY" 20 false = Returned gen ∧
          (0%Q, "ORY"%string) ∈ yielded gen) ∧
  ((Plane.distance World.orly World.orly <= 20)%Q →
   ∃ gen, findNearKey World.neighbors Plane.distance true World.airports
            "ORY" 20 true = Returned gen ∧
          (Plane.distance World.orly World.orly, "ORY"%string) ∈ yielded gen).
Proof.
  assert (_keys World.airports !! "ORY"%string
          = Some (Entry (4, 3) World.orly)) as Hkey by (vm_compute; reflexivity).
  assert (0 <= 20)%Q as Hradius by discriminate.
  pose proof (findNearKey_yields_key World.encode World.neighbors Plane.distance
                true World.airports "ORY" (Entry (4, 3) World.orly) 20
                (World_reachable _) Hkey Hradius) as Hyields.
  rewrite World_airports_rings_20 in Hyields. exact Hyields.
Defined.

(** X9. On an index built by the constructor and [add], every pair a
    radius search yields names an indexed key.  Without [double_check]
    its distance is the placeholder 0; with [double_check] it is the
    distance between the reference point (the query point, or the point
    stored for the query key) and the point stored for the key, and it
    is at most the radius. *)
Theorem near_search_results_sound
    {Cell : Type} `{Countable Cell} (encode : Q → Q → Z → outcome Cell)
    (neighbors : Cell → list Cell) (haversine : coords → coords → Q)
    (pep479 : bool) (g : GeoGrid Cell) (radius : Q) (double_check : bool) :
  reachable encode g →
  (∀ p gen d k,
     findNearPoint encode neighbors haversine pep479 g p radius double_check
       = Returned gen →
     (d, k) ∈ yielded gen →
     ∃ e, _keys g !! k = Some e ∧
          if double_check then d = haversine p (lat_lng e) ∧ (d <= radius)%Q
          else d = 0%Q) ∧
  (∀ key gen d k,
     findNearKey neighbors haversine pep479 g key radius double_check
       = Returned gen →
     (d, k) ∈ yielded gen →
     ∃ e0 e, _keys g !! key = Some e0 ∧ _keys g !! k = Some e ∧
             if double_check
             then d = haversine (lat_lng e0) (lat_lng e) ∧ (d <= radius)%Q
             else d = 0%Q).
Proof.
  intros Hreach.
  destruct (reachable_consistent encode g Hreach) as [_ Hbuckets].
  assert (∀ c N can,
            can ∈ yielded (_findInAdjacentCases neighbors pep479 g c N) →
            is_Some (_keys g !! can)) as Hcand.
  { intros c N can (c' & b & Hc & Hcan)%elem_of__findInAdjacentCases.
    by eapply Hbuckets. }
  split.
  - intros p gen d k Hret Hin. unfold findNearPoint, _findNearCase in Hret.
    destruct (_computeCaseId encode g p) as [c|err] eqn:Hcase.
    + destruct (near_rings g radius) as [N|err] eqn:HN;
        [|by destruct p].
      assert (gen = if double_check
                    then _check_distance haversine g
                           (_findInAdjacentCases neighbors pep479 g c N) p
                           (Fin radius)
                    else zero_dist (_findInAdjacentCases neighbors pep479 g c N))
        as ->.
      { destruct p; [discriminate Hcase| |discriminate Hcase].
        cbn [mbind outcome_bind bind] in Hret.
        by destruct double_check; injection Hret as <-. }
      eapply near_results; [apply Hcand|done].
    + destruct p; [|done..]. injection Hret as <-. by apply elem_of_nil in Hin.
  - intros key gen d k Hret Hin. unfold findNearKey, _findNearCase in Hret.
    destruct (_keys g !! key) as [e0|] eqn:Hkey.
    + destruct (near_rings g radius) as [N|err] eqn:HN; [|done].
      cbn [mbind outcome_bind bind] in Hret.
      assert (gen = if double_check
                    then _check_distance haversine g
                           (_findInAdjacentCases neighbors pep479 g (case e0) N)
                           (lat_lng e0) (Fin radius)
                    else zero_dist
                           (_findInAdjacentCases neighbors pep479 g (case e0) N))
        as -> by (by destruct double_check; injection Hret as <-).
      destruct (near_results haversine g _ (lat_lng e0) radius double_check d k
                  (Hcand (case e0) N) Hin) as (e & He & Hd).
      by exists e0, e.
    + injection Hret as <-. by apply elem_of_nil in Hin.
Qed.

Lemma near_search_results_sound_witness :
  (∀ p gen d k,
     findNearPoint World.encode World.neighbors Plane.distance true
       World.airports p 20 true = Returned gen →
     (d, k) ∈ yielded gen →
     ∃ e, _keys World.airports !! k = Some e ∧
          d = Plane.distance p (lat_lng e) ∧ (d <= 20)%Q) ∧
  (∀ key gen d k,
     findNearKey World.neighbors Plane.distance true World.airports key 20 true
       = Returned gen →
     (d, k) ∈ yielded gen →
     ∃ e0 e, _keys World.airports !! key = Some e0 ∧
             _keys World.airports !! k = Some e ∧
             d = Plane.distance (lat_lng e0) (lat_lng e) ∧ (d <= 20)%Q).
Proof.
  apply (near_search_results_sound World.encode World.neighbors Plane.distance
           true World.airports 20 true).
  apply World_reachable.
Defined.

(** ** Answers of the top-N search *)

Section ClosestAnswers.
Context {Cell : Type} `{Countable Cell}.

Lemma closest_loop_restricted (g : GeoGrid Cell) N (keys : gset Key) rings :
  ∀ found0, found0 ⊆ keys →
  (closest_loop g N (Some keys) rings found0).1 ⊆ keys.
Proof.
  induction rings as [|frontier rings IH]; intros found0 Hsub; [done|].
  cbn [closest_loop]. destruct (_ && _); cbn [fst].
  - apply intersection_subseteq_r.
  - apply IH, intersection_subseteq_r.
Qed.

(** The loop is left by [break] only with at least [N] keys found. *)
Lemma closest_loop_broke (g : GeoGrid Cell) N from_keys rings : ∀ found0,
  (closest_loop g N from_keys rings found0).2 = true →
  N ≤ Z.of_nat (size (closest_loop g N from_keys rings found0).1).
Proof.
  induction rings as [|frontier rings IH]; intros found0; [done|].
  cbn [closest_loop].
  destruct (_ && _) eqn:Hstop; cbn [fst snd]; [intros _|apply IH].
  apply andb_true_iff in Hstop as [Hn _]. by apply Z.leb_le in Hn.
Qed.

Lemma slice_to_elem_of {A} (n : Z) (l : list A) x : x ∈ slice_to n l → x ∈ l.
Proof. unfold slice_to. destruct (0 <=? n); apply subseteq_take. Qed.

Lemma slice_to_NoDup {A B} (f : A → B) (n : Z) (l : list A) :
  NoDup (f <$> l) → NoDup (f <$> slice_to n l).
Proof.
  unfold slice_to. intros Hl.
  destruct (0 <=? n); rewrite fmap_take;
    (eapply sublist_NoDup; [exact Hl|apply sublist_take]).
Qed.

End ClosestAnswers.

(** X10. On an index built by the constructor and [add], a list
    returned by [findClosestFromPoint] names no key twice; every key in
    it is indexed and, when a restriction set is given, belongs to that
    set; its distance is the placeholder 0 without [double_check] and the
    distance from the query point to the key's stored point with it. *)
Theorem closest_results_sound
    {Cell : Type} `{Countable Cell} (encode : Q → Q → Z → outcome Cell)
    (neighbors : Cell → list Cell) (haversine : coords → coords → Q)
    (pep479 : bool) (g : GeoGrid Cell) (p : coords) (N : Z)
    (double_check : bool) (from_keys : option (gset Key))
    (l : list (Q * Key)) :
  reachable encode g →
  findClosestFromPoint encode neighbors haversine pep479 g p N double_check
    from_keys = Returned l →
  NoDup (snd <$> l) ∧
  ∀ d k, (d, k) ∈ l →
    ∃ e, _keys g !! k = Some e ∧
         (∀ keys, from_keys = Some keys → k ∈ keys) ∧
         if double_check then d = haversine p (lat_lng e) else d = 0%Q.
Proof.
  intros Hreach Hret.
  destruct (reachable_consistent encode g Hreach) as [_ Hg].
  apply (findClosestFromPoint_returned _ _ _ _ _ _ _ _ _ _ Hg) in Hret
    as [[_ ->]|(c & found & Hfrom & _ & Hfound & ->)].
  { split; [constructor|]. intros d k Hin. by apply elem_of_nil in Hin. }
  assert (∀ k, k ∈ found → ∃ e, _keys g !! k = Some e ∧
                                ∀ keys, from_keys = Some keys → k ∈ keys)
    as Hkeys.
  { intros k Hk. rewrite Hfound in Hk.
    destruct (closest_loop_indexed g _ _ _ k Hg Hk) as [e He].
    exists e. split; [done|]. intros keys ->. revert Hk.
    apply closest_loop_restricted. apply empty_subseteq. }
  clear Hfound.
  assert (snd <$> (with_distance haversine g p <$> elements found)
          = elements found) as Hsnd.
  { rewrite <- list_fmap_compose. apply list_fmap_id. }
  destruct double_check.
  - destruct (sorted_ascending (with_distance haversine g p <$> elements found))
      as [_ Hperm].
    split.
    + apply slice_to_NoDup. rewrite Hperm, Hsnd. apply NoDup_elements.
    + intros d k Hin%slice_to_elem_of. rewrite Hperm in Hin.
      apply list_elem_of_fmap in Hin as (k' & Heq & Hk'%elem_of_elements).
      unfold with_distance in Heq.
      destruct (Hkeys k' Hk') as (e & He & Hin). rewrite He in Heq.
      injection Heq as -> ->. by exists e.
  - split.
    + rewrite <- list_fmap_compose, list_fmap_id. apply NoDup_elements.
    + intros d k (k' & [= -> ->] & Hk'%elem_of_elements)%list_elem_of_fmap.
      destruct (Hkeys k' Hk') as (e & He & Hin). by exists e.
Qed.

Lemma closest_results_sound_witness :
  NoDup (snd <$> World.closest_to_roissy) ∧
  ∀ d k, (d, k) ∈ World.closest_to_roissy →
    ∃ e, _keys World.airports !! k = Some e ∧
         (∀ keys, (None : option (gset Key)) = Some keys → k ∈ keys) ∧
         d = Plane.distance World.roissy (lat_lng e).
Proof.
  apply (closest_results_sound World.encode World.neighbors Plane.distance
           false World.airports World.roissy 2 true None
           World.closest_to_roissy).
  - apply World_reachable.
  - vm_compute. reflexivity.
Defined.

(** X11. Under PEP 479 a refined top-N answer is never short: on an
    index built by the constructor and [add], with [N] not negative and
    a restriction set that is absent or not empty, a list returned with
    [double_check] has exactly [N] entries, [N] clamped to the number of
    indexed keys.  (A search that cannot gather that many raises
    instead.) *)
Theorem closest_refined_count
    {Cell : Type} `{Countable Cell} (encode : Q → Q → Z → outcome Cell)
    (neighbors : Cell → list Cell) (haversine : coords → coords → Q)
    (g : GeoGrid Cell) (p : coords) (N : Z)
    (from_keys : option (gset Key)) (l : list (Q * Key)) :
  reachable encode g →
  from_keys ≠ Some ∅ →
  0 ≤ N →
  findClosestFromPoint encode neighbors haversine true g p N true from_keys
    = Returned l →
  Z.of_nat (length l) = Z.min N (Z.of_nat (size (_keys g))).
Proof.
  intros Hreach Hfrom HN Hret.
  destruct (reachable_consistent encode g Hreach) as [_ Hg].
  destruct (_computeCaseId encode g p) as [c|e] eqn:Hcase.
  - rewrite (findClosestFromPoint_unfold _ _ _ _ _ _ _ _ _ c) in Hret by done.
    cbv zeta in Hret. rewrite andb_true_r in Hret.
    set (n := Z.min N (Z.of_nat (size (_keys g)))) in *.
    set (loop := closest_loop _ _ _ _ _) in *.
    pose proof (closest_loop_broke g n from_keys
                  (yielded (_recursiveFrontier neighbors c 1 false)) ∅) as Hbroke.
    fold loop in Hbroke. clearbody loop.
    destruct loop as [found broke]. cbn [fst snd] in *.
    destruct broke; [|discriminate Hret]. injection Hret as <-.
    specialize (Hbroke eq_refl).
    destruct (sorted_ascending (with_distance haversine g p <$> elements found))
      as [_ Hperm%Permutation_length].
    rewrite length_fmap in Hperm.
    assert (length (elements found) = size found) as Hlen by done.
    assert (0 ≤ n) as Hn by (unfold n; lia).
    unfold slice_to. replace (0 <=? n) with true by (symmetry; by apply Z.leb_le).
    rewrite length_take_le; [lia|].
    assert (Z.to_nat n ≤ size found)%nat as Hc by lia. rewrite <- Hlen in Hc.
    exact (eq_ind_r (λ m, (Z.to_nat n ≤ m)%nat) Hc Hperm).
  - unfold findClosestFromPoint in Hret.
    rewrite bool_decide_eq_false_2 in Hret by done. by rewrite Hcase in Hret.
Qed.

Lemma closest_refined_count_witness :
  Z.of_nat (length World.closest_to_roissy)
    = Z.min 2 (Z.of_nat (size (_keys World.airports))).
Proof.
  apply (closest_refined_count World.encode World.neighbors Plane.distance
           World.airports World.roissy 2 None World.closest_to_roissy).
  - apply World_reachable.
  - discriminate.
  - lia.
  - vm_compute. reflexivity.
Defined.

(** ** How the searches compose *)

(** X12. On an index built by the constructor and [add], searching
    around an indexed key is searching around the point stored for it:
    [findNearKey] gives what [findNearPoint] gives on that point, with
    or without [double_check]. *)
Theorem findNearKey_is_findNearPoint
    {Cell : Type} `{Countable Cell} (encode : Q → Q → Z → outcome Cell)
    (neighbors : Cell → list Cell) (haversine : coords → coords → Q)
    (pep479 : bool) (g : GeoGrid Cell) (key : Key) (e : entry Cell)
    (radius : Q) (double_check : bool) :
  reachable encode g →
  _keys g !! key = Some e →
  findNearKey neighbors haversine pep479 g key radius double_check =
    findNearPoint encode neighbors haversine pep479 g (lat_lng e) radius
      double_check.
Proof.
  intros Hreach Hkey.
  assert (_computeCaseId encode g (lat_lng e) = Returned (case e)) as Hcase.
  { revert key e Hkey.
    induction Hreach as [precision r verbose g out Hinit
                        |g k p verbose g' out _ IH Hadd].
    - apply __init___empty in Hinit as [Hk _].
      intros key e. by rewrite Hk, lookup_empty.
    - by eapply add_encoded_cells. }
  unfold findNearKey, findNearPoint. rewrite Hkey, Hcase.
  destruct (lat_lng e); [discriminate Hcase|done..].
Qed.

Lemma findNearKey_is_findNearPoint_witness :
  findNearKey World.neighbors Plane.distance true World.moved "ORY" 20 true =
    findNearPoint World.encode World.neighbors Plane.distance true World.moved
      (lat_lng (Entry (6, 2) (Coords 10 100))) 20 true.
Proof.
  apply (findNearKey_is_findNearPoint World.encode World.neighbors
           Plane.distance true World.moved "ORY" (Entry (6, 2) (Coords 10 100))
           20 true).
  - apply World_reachable.
  - vm_compute. reflexivity.
Defined.

(** X13. How a bounded search over adjacent cells ends.  Asked for no
    frontier ([N ≤ 0]) it yields nothing.  Asked for at most
    [MAX_RECURSIVE_FRONTIER + 1] frontiers it ends normally.  Asked for
    more, the guard of the frontier generator trips: before PEP 479 the
    search still ends normally, with the keys of the first
    [MAX_RECURSIVE_FRONTIER + 1] frontiers; under PEP 479 its consumer
    gets [RuntimeError] after those keys. *)
Theorem adjacent_search_ending
    {Cell : Type} `{Countable Cell} (neighbors : Cell → list Cell)
    (pep479 : bool) (g : GeoGrid Cell) (case_id : Cell) (N : Z) :
  (N ≤ 0 → yielded (_findInAdjacentCases neighbors pep479 g case_id N) = []) ∧
  stop (_findInAdjacentCases neighbors pep479 g case_id N) =
    (if pep479 && (MAX_RECURSIVE_FRONTIER + 1 <? N)
     then Failed RuntimeError else Finished) ∧
  yielded (_findInAdjacentCases neighbors pep479 g case_id N) =
    yielded (_findInAdjacentCases neighbors pep479 g case_id
               (Z.min N (MAX_RECURSIVE_FRONTIER + 1))).
Proof.
  pose proof MAX_RECURSIVE_FRONTIER_nonneg as Hmax.
  split; [|split].
  - intros HN. unfold _findInAdjacentCases, _recursiveFrontier, range_len.
    by replace (Z.to_nat N) with O by lia.
  - unfold _findInAdjacentCases. cbn [stop].
    rewrite _recursiveFrontier_stop.
    destruct (Z.ltb_spec (MAX_RECURSIVE_FRONTIER + 1) N).
    + rewrite decide_True by (by right). by destruct pep479.
    + rewrite decide_False by (intros [?|?]; [done|lia]).
      by rewrite andb_false_r.
  - unfold _findInAdjacentCases. cbn [yielded]. f_equal.
    unfold _recursiveFrontier, range_len.
    destruct (Z.le_gt_cases N (MAX_RECURSIVE_FRONTIER + 1)) as [Hle|Hgt].
    + by rewrite Z.min_l.
    + rewrite Z.min_r by lia.
      assert (∀ fuel (F I : gset Cell),
                MAX_RECURSIVE_FRONTIER + 1 ≤ Z.of_nat fuel →
                yielded (frontiers neighbors fuel 0 F I) =
                yielded (frontiers neighbors
                           (Z.to_nat (MAX_RECURSIVE_FRONTIER + 1)) 0 F I))
        as Hcap; [|apply Hcap; lia].
      intros fuel F I Hfuel.
      replace fuel with (Z.to_nat (MAX_RECURSIVE_FRONTIER + 1)
                         + (fuel - Z.to_nat (MAX_RECURSIVE_FRONTIER + 1)))%nat
        at 1 by lia.
      generalize (fuel - Z.to_nat (MAX_RECURSIVE_FRONTIER + 1))%nat as extra.
      assert (∀ n i (F I : gset Cell) extra,
                Z.of_nat n + i = MAX_RECURSIVE_FRONTIER + 1 → 0 ≤ i →
                yielded (frontiers neighbors (n + extra) i F I) =
                yielded (frontiers neighbors n i F I)) as Hgen.
      { clear. induction n as [|n IH]; intros i F I extra Hn Hi.
        - cbn [Nat.add frontiers yielded].
          destruct extra as [|extra]; [done|]. rewrite frontiers_unfold.
          by destruct (Z.ltb_spec MAX_RECURSIVE_FRONTIER i); [|lia].
        - cbn [Nat.add]. rewrite !frontiers_unfold.
          destruct (MAX_RECURSIVE_FRONTIER <? i); [done|].
          cbn [yielded]. f_equal. apply IH; lia. }
      intros extra. apply Hgen; lia.
Qed.

Section ClosestCover.
Context {Cell : Type} `{Countable Cell}.
Variable neighbors : Cell → list Cell.

(** One turn of the loop: the keys found so far, the keys of the
    frontier's buckets, and the restriction. *)
Let turn (g : GeoGrid Cell) (from_keys : option (gset Key))
    (frontier : gset Cell) (found : gset Key) : gset Key :=
  match from_keys with
  | Some keys =>
      (found ∪ list_to_set (_allKeysInCases g (elements frontier))) ∩ keys
  | None => found ∪ list_to_set (_allKeysInCases g (elements frontier))
  end.

Lemma turn_keeps (g : GeoGrid Cell) from_keys frontier found key :
  (∀ keys, from_keys = Some keys → key ∈ keys) →
  key ∈ found ∨
  (∃ c bucket, c ∈ frontier ∧ _grid g !! c = Some bucket ∧ key ∈ bucket) →
  key ∈ turn g from_keys frontier found.
Proof.
  intros Hallowed Hkey.
  assert (key ∈ found ∪ list_to_set (_allKeysInCases g (elements frontier)))
    as Hin.
  { apply elem_of_union. destruct Hkey as [?|(c & bucket & Hc & Hb & Hk)];
      [by left|right].
    apply elem_of_list_to_set, elem_of__allKeysInCases.
    exists c, bucket. split; [by apply elem_of_elements|done]. }
  unfold turn. destruct from_keys as [keys|]; [|done].
  apply elem_of_intersection. split; [done|by apply Hallowed].
Qed.

Lemma closest_loop_keeps (g : GeoGrid Cell) N from_keys rings key :
  (∀ keys, from_keys = Some keys → key ∈ keys) →
  ∀ found, key ∈ found → key ∈ (closest_loop g N from_keys rings found).1.
Proof.
  intros Hallowed.
  induction rings as [|frontier rings IH]; intros found Hkey; [done|].
  cbn [closest_loop]. fold (turn g from_keys frontier found).
  assert (key ∈ turn g from_keys frontier found) as Hturn
    by (apply turn_keeps; [done|by left]).
  destruct (_ && _); cbn [fst]; [done|by apply IH].
Qed.

(** The loop never stops on the starting cell alone: it takes in the
    buckets of the first two frontiers whatever [N] is. *)
Lemma closest_loop_first_two (g : GeoGrid Cell) N from_keys
    (case_id : Cell) (ring1 : gset Cell) rest c bucket key :
  (∀ keys, from_keys = Some keys → key ∈ keys) →
  c = case_id ∨ c ∈ ring1 →
  _grid g !! c = Some bucket → key ∈ bucket →
  key ∈ (closest_loop g N from_keys ({[case_id]} :: ring1 :: rest) ∅).1.
Proof.
  intros Hallowed Hc Hb Hkey. cbn [closest_loop].
  fold (turn g from_keys {[case_id]} ∅).
  fold (turn g from_keys ring1 (turn g from_keys {[case_id]} ∅)).
  rewrite size_singleton. replace (1 <? Z.of_nat 1) with false by reflexivity.
  rewrite andb_false_r.
  assert (key ∈ turn g from_keys ring1 (turn g from_keys {[case_id]} ∅))
    as Hturn.
  { apply turn_keeps; [done|]. destruct Hc as [->|Hc].
    - left. apply turn_keeps; [done|]. right. exists case_id, bucket.
      split; [by apply elem_of_singleton|done].
    - right. by exists c, bucket. }
  destruct (_ && _); cbn [fst]; [done|by apply closest_loop_keeps].
Qed.

Lemma _recursiveFrontier_unbounded_first_two (case_id : Cell) (N : Z) :
  ∃ rest, yielded (_recursiveFrontier neighbors case_id N false) =
            {[case_id]} :: _nextFrontier neighbors {[case_id]} {[case_id]}
            :: rest.
Proof.
  unfold _recursiveFrontier.
  pose proof MAX_RECURSIVE_FRONTIER_nonneg as Hmax.
  destruct (Z.to_nat (MAX_RECURSIVE_FRONTIER + 2)) as [|[|fuel]] eqn:Hfuel;
    [lia..|].
  rewrite !frontiers_unfold.
  replace (MAX_RECURSIVE_FRONTIER <? 0) with false by reflexivity.
  replace (MAX_RECURSIVE_FRONTIER <? 0 + 1) with false by reflexivity.
  cbn [yielded]. by eexists.
Qed.

End ClosestCover.

(** X14. Whatever [N] is, the top-N search looks at the query's cell
    and at the cells next to it before it stops: on an index built by the
    constructor and [add], a list returned without [double_check] holds
    every key found in the bucket of the query's cell or of one of its
    neighbours (and in the restriction set, when one is given). *)
Theorem closest_covers_adjacent_cells
    {Cell : Type} `{Countable Cell} (encode : Q → Q → Z → outcome Cell)
    (neighbors : Cell → list Cell) (haversine : coords → coords → Q)
    (pep479 : bool) (g : GeoGrid Cell) (p : coords) (N : Z)
    (from_keys : option (gset Key)) (l : list (Q * Key))
    (case_id c : Cell) (bucket : list Key) (key : Key) :
  reachable encode g →
  _computeCaseId encode g p = Returned case_id →
  c = case_id ∨ c ∈ neighbors case_id →
  _grid g !! c = Some bucket → key ∈ bucket →
  (∀ keys, from_keys = Some keys → key ∈ keys) →
  findClosestFromPoint encode neighbors haversine pep479 g p N false from_keys
    = Returned l →
  (0%Q, key) ∈ l.
Proof.
  intros Hreach Hcase Hc Hb Hkey Hallowed Hret.
  destruct (reachable_consistent encode g Hreach) as [_ Hg].
  apply (findClosestFromPoint_returned _ _ _ _ _ _ _ _ _ _ Hg) in Hret
    as [[-> _]|(c0 & found & _ & Hcase0 & Hfound & ->)].
  { by destruct (not_elem_of_empty (C := gset Key) key); apply Hallowed. }
  rewrite Hcase in Hcase0. injection Hcase0 as <-.
  apply list_elem_of_fmap. exists key. split; [done|].
  apply elem_of_elements. rewrite Hfound.
  destruct (_recursiveFrontier_unbounded_first_two neighbors case_id 1)
    as [rest ->].
  apply (closest_loop_first_two g _ from_keys case_id _ rest c bucket);
    [done| |done..].
  destruct Hc as [->|Hc]; [by left|].
  destruct (decide (c = case_id)) as [->|Hne]; [by left|right].
  apply elem_of__nextFrontier. split; [by apply not_elem_of_singleton|].
  exists case_id. split; [by apply elem_of_singleton|done].
Qed.

Lemma closest_covers_adjacent_cells_witness :
  (0%Q, "A"%string) ∈ [(0%Q, "C"%string); (0%Q, "A"%string); (0%Q, "B"%string)].
Proof.
  apply (closest_covers_adjacent_cells World.encode World.neighbors
           Plane.distance false World.triplet World.roissy 1 None
           [(0%Q, "C"%string); (0%Q, "A"%string); (0%Q, "B"%string)]
           (4, 3) (4, 3) ["A"; "B"; "C"]%string "A").
  - apply World_reachable.
  - reflexivity.
  - by left.
  - vm_compute. reflexivity.
  - apply list_elem_of_here.
  - discriminate.
  - vm_compute. reflexivity.
Defined.

(** ** The index after a build phase *)

Lemma add_all_snoc {Cell : Type} `{Countable Cell}
    (encode : Q → Q → Z → outcome Cell) (g : GeoGrid Cell) points key p :
  add_all encode g (points ++ [(key, p)]) =
    match add encode (add_all encode g points) key p true with
    | Returned (g', _) => g'
    | Raised _ => add_all encode g points
    end.
Proof. unfold add_all. by rewrite foldl_snoc. Qed.

Lemma add_all_precision {Cell : Type} `{Countable Cell}
    (encode : Q → Q → Z → outcome Cell) (g : GeoGrid Cell) points :
  _precision (add_all encode g points) = _precision g.
Proof.
  induction points as [|[key p] points IH] using rev_ind; [done|].
  rewrite add_all_snoc.
  destruct (add_cases encode (add_all encode g points) key p true)
    as [(e & _ & ->)|(c & g' & _ & -> & Hp & _)]; [done|]. by rewrite Hp.
Qed.

Lemma accepted_snoc {Cell : Type} `{Countable Cell}
    (encode : Q → Q → Z → outcome Cell) (g : GeoGrid Cell) points key p :
  accepted encode g (points ++ [(key, p)]) =
    accepted encode g points ++
      match _computeCaseId encode g p with
      | Returned case_id => [(key, Entry case_id p)]
      | Raised _ => []
      end.
Proof.
  unfold accepted. rewrite omap_app. f_equal. cbn.
  by destruct (_computeCaseId encode g p).
Qed.

(** X15. After a build phase on a fresh index, the two dictionaries are
    determined by the points the encoder accepted, in the order of the
    calls: [_keys] maps a key to the last accepted point given for it
    (with its cell), and the bucket of a cell lists, in call order and
    with repetitions, the keys of the accepted points that fall in the
    cell.  Rejected points leave no trace. *)
Theorem build_phase_state
    {Cell : Type} `{Countable Cell} (encode : Q → Q → Z → outcome Cell)
    (g : GeoGrid Cell) (points : list (Key * coords)) :
  _keys g = ∅ → _grid g = ∅ →
  (∀ key, _keys (add_all encode g points) !! key =
            snd <$> last (filter (λ x, x.1 = key) (accepted encode g points))) ∧
  (∀ case_id, default [] (_grid (add_all encode g points) !! case_id) =
                fst <$> filter (λ x, case x.2 = case_id)
                          (accepted encode g points)) ∧
  (∀ case_id, _grid (add_all encode g points) !! case_id = None ↔
                filter (λ x, case x.2 = case_id) (accepted encode g points) = []).
Proof.
  intros Hkeys Hgrid.
  induction points as [|[key p] points IH] using rev_ind.
  { cbn. rewrite Hkeys, Hgrid. split; [|split]; intros x;
      by rewrite lookup_empty. }
  destruct IH as (IHk & IHb & IHn).
  rewrite add_all_snoc, accepted_snoc.
  rewrite <- (_computeCaseId_precision encode g (add_all encode g points) p)
    by apply add_all_precision.
  destruct (add_cases encode (add_all encode g points) key p true)
    as [(e & -> & ->)|(c & g' & -> & -> & _ & _ & Hk & Hg)].
  { rewrite app_nil_r. by split; [|split]. }
  split; [|split].
  - intros k. rewrite Hk, lookup_insert, filter_app, filter_cons, filter_nil.
    cbn [fst]. case_decide as Hkk.
    + by rewrite last_snoc.
    + by rewrite app_nil_r.
  - intros c'. rewrite Hg, filter_app, filter_cons, filter_nil, fmap_app.
    cbn [snd case]. case_decide as Hc.
    + subst c'. cbn [default]. by rewrite IHb.
    + by rewrite app_nil_r, IHb.
  - intros c'. rewrite Hg, filter_app, filter_cons, filter_nil.
    cbn [snd case]. case_decide as Hc.
    + split; [done|]. intros Hnil. by apply app_eq_nil in Hnil as [_ ?].
    + by rewrite app_nil_r.
Qed.

Lemma build_phase_state_witness :
  (∀ key, _keys World.moved !! key =
            snd <$> last (filter (λ x, x.1 = key)
                            (accepted World.encode (MkGeoGrid 4 20 ∅ ∅)
                               [("ORY"%string, World.orly);
                                ("CDG"%string, World.roissy);
                                ("ORY"%string, Coords 10 100)]))) ∧
  (∀ case_id, default [] (_grid World.moved !! case_id) =
                fst <$> filter (λ x, case x.2 = case_id)
                          (accepted World.encode (MkGeoGrid 4 20 ∅ ∅)
                             [("ORY"%string, World.orly);
                              ("CDG"%string, World.roissy);
                              ("ORY"%string, Coords 10 100)])) ∧
  (∀ case_id, _grid World.moved !! case_id = None ↔
                filter (λ x, case x.2 = case_id)
                  (accepted World.encode (MkGeoGrid 4 20 ∅ ∅)
                     [("ORY"%string, World.orly);
                      ("CDG"%string, World.roissy);
                      ("ORY"%string, Coords 10 100)]) = []).
Proof.
  apply (build_phase_state World.encode (MkGeoGrid 4 20 ∅ ∅)
           [("ORY"%string, World.orly); ("CDG"%string, World.roissy);
            ("ORY"%string, Coords 10 100)]); reflexivity.
Defined.

(** X16. Moving a key leaves its old bucket entry behind.  When an
    indexed key is added again at a point of another cell, [_keys]
    records the new cell and point, but the key stays in the bucket of
    the old cell: an unrefined radius search from any point of the old
    cell still yields it, unless the radius is so large that the search
    raises [OverflowError]. *)
Theorem moved_key_stays_in_old_bucket
    {Cell : Type} `{Countable Cell} (encode : Q → Q → Z → outcome Cell)
    (neighbors : Cell → list Cell) (haversine : coords → coords → Q)
    (pep479 : bool) (g : GeoGrid Cell) (key : Key) (e : entry Cell)
    (p : coords) (case_id : Cell) (verbose : bool) :
  reachable encode g →
  _keys g !! key = Some e →
  _computeCaseId encode g p = Returned case_id →
  case_id ≠ case e →
  ∃ g', add encode g key p verbose = Returned (g', []) ∧
        _keys g' !! key = Some (Entry case_id p) ∧
        (∃ bucket, _grid g' !! case e = Some bucket ∧ key ∈ bucket) ∧
        ∀ q radius, (0 <= radius)%Q →
          _computeCaseId encode g' q = Returned (case e) →
          match near_rings g' radius with
          | Raised err =>
              err = OverflowError ∧
              findNearPoint encode neighbors haversine pep479 g' q radius
                false = Raised OverflowError
          | Returned _ =>
              ∃ gen, findNearPoint encode neighbors haversine pep479 g' q
                       radius false = Returned gen ∧
                     (0%Q, key) ∈ yielded gen
          end.
Proof.
  intros Hreach Hkey Hcase Hmoved.
  destruct (reachable_consistent encode g Hreach) as [Hkeys _].
  destruct (Hkeys key e Hkey) as (bucket & Hb & Hin).
  destruct (add_cases encode g key p verbose)
    as [(err & Herr & _)|(c & g' & Hc & Hput & _ & Havg & Hk & Hg)].
  { rewrite Hcase in Herr. discriminate Herr. }
  rewrite Hcase in Hc. injection Hc as <-.
  assert (_grid g' !! case e = Some bucket) as Hb'
    by (by rewrite Hg, decide_False).
  assert (reachable encode g') as Hreach' by (by eapply reachable_add).
  exists g'. split; [done|]. split; [by rewrite Hk, lookup_insert_eq|].
  split; [by exists bucket|].
  intros q radius Hradius Hq.
  pose proof (near_rings_cases encode g' radius Hreach' Hradius) as Hcases.
  unfold findNearPoint, _findNearCase. rewrite Hq.
  destruct q; [discriminate Hq| |discriminate Hq].
  destruct (near_rings g' radius) as [N|err]; cbn [mbind outcome_bind bind];
    [|by subst err].
  eexists. split; [reflexivity|].
  unfold zero_dist. cbn [yielded]. apply list_elem_of_fmap. exists key.
  split; [done|].
  apply (_findInAdjacentCases_own_cell neighbors pep479 g' (case e) _ bucket);
    [lia|done..].
Qed.

Lemma moved_key_stays_in_old_bucket_witness :
  ∃ g', add World.encode World.airports "ORY" (Coords 10 100) true
          = Returned (g', []) ∧
        _keys g' !! "ORY"%string = Some (Entry (6, 2) (Coords 10 100)) ∧
        (∃ bucket, _grid g' !! case (Entry (4, 3) World.orly) = Some bucket ∧
                   "ORY"%string ∈ bucket) ∧
        ∀ q radius, (0 <= radius)%Q →
          _computeCaseId World.encode g' q
            = Returned (case (Entry (4, 3) World.orly)) →
          match near_rings g' radius with
          | Raised err =>
              err = OverflowError ∧
              findNearPoint World.encode World.neighbors Plane.distance true
                g' q radius false = Raised OverflowError
          | Returned _ =>
              ∃ gen, findNearPoint World.encode World.neighbors Plane.distance
                       true g' q radius false = Returned gen ∧
                     (0%Q, "ORY"%string) ∈ yielded gen
          end.
Proof.
  apply (moved_key_stays_in_old_bucket World.encode World.neighbors
           Plane.distance true World.airports "ORY" (Entry (4, 3) World.orly)
           (Coords 10 100) (6, 2) true).
  - apply World_reachable.
  - vm_compute. reflexivity.
  - reflexivity.
  - discriminate.
Defined.

(** ** More frontiers *)



